(** * RSS reader: feed aggregation, cache merging, grouping and filtering

    A shallow embedding of the aggregation logic of the RSS reader
    (the React components [App] of src/App.tsx, its older single-list
    variant, and the batched [RSSPage] component with the [useRSSData]
    hook), followed by the properties proved about it.

    Conventions of the embedding.
    - A JavaScript string is the list of its UTF-16 code units.
    - A plain object used as a dictionary ([feedsByCategory], the
      accumulator of [groupedFeeds]) is a finite map over its own
      properties; the keys that occur (category ids, feed names) are
      taken not to be names of [Object.prototype] members, and the
      enumeration order of the keys is not modelled.
    - A [Set] of strings is a finite set.
    - React state setters are state transformers; a handler is the
      composition of the setters it calls, in program order. *)

From Stdlib Require Import String Ascii.
From stdpp Require Import gmap list sorting.
From Equations Require Import Equations.

Open Scope list_scope.

(** ** JavaScript strings *)

Abbreviation jstring := (list N).

(** An ASCII literal as a JavaScript string. *)
Definition js (s : string) : jstring :=
  (λ c, N_of_ascii c) <$> list_ascii_of_string s.

(** ** The data types of src/types/rss.ts *)

Module RSSCategory.
Record t := mk {
  id : jstring;
  name : jstring;
  color : jstring;
  count : nat
}.
End RSSCategory.

Module RSSItem.
(** [pubDate] is the time value of the [Date] in milliseconds, [None]
    for an invalid date. *)
Record t := mk {
  id : jstring;
  title : jstring;
  description : jstring;
  link : jstring;
  pubDate : option Z;
  category : RSSCategory.t;
  source : jstring;
  author : jstring;
  feedName : jstring
}.
End RSSItem.

Module RSSFeedConfig.
Record t := mk {
  name : jstring;
  url : jstring;
  category : jstring;
  description : jstring
}.
End RSSFeedConfig.

Module RSSConfig.
Record t := mk { feeds : list RSSFeedConfig.t }.
End RSSConfig.

(** ** The feed cache of the [useRSSData] hook *)

Module Cache.

(** The loop of [addFeedsToCategory]: [linkSet] is the set of links seen
    so far, the result is what is pushed onto [uniqueFeeds]. *)
Fixpoint uniqueFeeds (linkSet : gset jstring) (allFeeds : list RSSItem.t)
  : list RSSItem.t :=
  match allFeeds with
  | [] => []
  | feed :: rest =>
      if decide (RSSItem.link feed ∈ linkSet)
      then uniqueFeeds linkSet rest
      else feed :: uniqueFeeds ({[RSSItem.link feed]} ∪ linkSet) rest
  end.

(** [prev[categoryId] || []] *)
Definition feedsOf (s : gmap jstring (list RSSItem.t)) (categoryId : jstring)
  : list RSSItem.t := default [] (s !! categoryId).

Definition addFeedsToCategory (categoryId : jstring)
    (newFeeds : list RSSItem.t) (prev : gmap jstring (list RSSItem.t))
  : gmap jstring (list RSSItem.t) :=
  let currentFeeds := feedsOf prev categoryId in
  let allFeeds := currentFeeds ++ newFeeds in
  <[categoryId := uniqueFeeds ∅ allFeeds]> prev.

Definition clearCategoryFeeds (categoryId : jstring)
    (prev : gmap jstring (list RSSItem.t)) : gmap jstring (list RSSItem.t) :=
  <[categoryId := []]> prev.

Definition clearAllFeeds (prev : gmap jstring (list RSSItem.t))
  : gmap jstring (list RSSItem.t) := ∅.

(** The operations the hook exports. *)
Inductive op :=
| AddFeedsToCategory (categoryId : jstring) (newFeeds : list RSSItem.t)
| ClearCategoryFeeds (categoryId : jstring)
| ClearAllFeeds.

Definition run (o : op) (prev : gmap jstring (list RSSItem.t))
  : gmap jstring (list RSSItem.t) :=
  match o with
  | AddFeedsToCategory c fs => addFeedsToCategory c fs prev
  | ClearCategoryFeeds c => clearCategoryFeeds c prev
  | ClearAllFeeds => clearAllFeeds prev
  end.

(** The states the hook can be in: [useState({})] followed by any
    sequence of operations. *)
Inductive reachable : gmap jstring (list RSSItem.t) → Prop :=
| reach_init : reachable ∅
| reach_step o s : reachable s → reachable (run o s).

(** The links of the feeds stored under every key are pairwise distinct. *)
Definition deduplicated (s : gmap jstring (list RSSItem.t)) : Prop :=
  ∀ categoryId feeds,
    s !! categoryId = Some feeds → NoDup (RSSItem.link <$> feeds).

(** "A later response overwrites", read on two batches merged in
    succession into one category: an item of the later batch replaces
    the stored item that has its link. *)
Definition later_response_overwrites (s : gmap jstring (list RSSItem.t))
    (categoryId : jstring) (batch1 batch2 : list RSSItem.t) : Prop :=
  let s1 := addFeedsToCategory categoryId batch1 s in
  let s2 := addFeedsToCategory categoryId batch2 s1 in
  ∀ x y, x ∈ feedsOf s1 categoryId → y ∈ batch2 →
         RSSItem.link y = RSSItem.link x →
         y ∈ feedsOf s2 categoryId ∧ (x ≠ y → x ∉ feedsOf s2 categoryId).

(** Sample data: one category and two items that share a link. *)
Definition tech : RSSCategory.t :=
  RSSCategory.mk (js "tech") (js "Tech") (js "#3B82F6") 0.
Definition older : RSSItem.t :=
  RSSItem.mk (js "blog-1-0") (js "first title") (js "first text")
    (js "https://example.org/a") (Some 1000%Z) tech (js "Blog")
    (js "Blog") (js "blog").
Definition newer : RSSItem.t :=
  RSSItem.mk (js "blog-2-0") (js "revised title") (js "revised text")
    (js "https://example.org/a") (Some 2000%Z) tech (js "Blog")
    (js "Blog") (js "blog").
Definition other : RSSItem.t :=
  RSSItem.mk (js "news-2-1") (js "another title") (js "another text")
    (js "https://example.org/b") (Some 1500%Z) tech (js "News")
    (js "News") (js "news").

End Cache.

(** ** Expanded sources *)

(** [toggleSource] of src/App.tsx, as the set handed to [setExpandedSources]. *)
Definition toggleSource (sourceName : jstring) (expandedSources : gset jstring)
  : gset jstring :=
  if decide (sourceName ∈ expandedSources)
  then expandedSources ∖ {[sourceName]}
  else expandedSources ∪ {[sourceName]}.

(** ** String built-ins used by the components *)

Module JsString.

Definition lt_sign : N := 60.   (* '<' *)
Definition gt_sign : N := 62.   (* '>' *)
Definition dash : N := 45.      (* '-' *)

(** The code units matched by [\s] and removed by [trim]: ECMAScript
    WhiteSpace and LineTerminator. *)
Definition is_ws (c : N) : bool :=
  bool_decide (c ∈ [9; 10; 11; 12; 13; 32; 160; 5760; 8232; 8233; 8239;
                    8287; 12288; 65279]%N)
  || ((8192 <=? c) && (c <=? 8202))%N.

Fixpoint dropWs (s : jstring) : jstring :=
  match s with
  | [] => []
  | c :: rest => if is_ws c then dropWs rest else s
  end.

(** [s.trim()] *)
Definition trim (s : jstring) : jstring :=
  reverse (dropWs (reverse (dropWs s))).

(** [s.toLowerCase()] on the letters [A] to [Z]; every other code unit is
    kept as it is, which is what the built-in does on strings of the
    Basic Latin block. The general results below use no property of it. *)
Definition toLowerCase (s : jstring) : jstring :=
  (λ c, if ((65 <=? c) && (c <=? 90))%N then (c + 32)%N else c) <$> s.

(** [s.replace(/\s+/g, '-')]: [inRun] tells that the previous code unit
    belonged to the run of white space being replaced. *)
Fixpoint replaceWsRuns (inRun : bool) (s : jstring) : jstring :=
  match s with
  | [] => []
  | c :: rest =>
      if is_ws c
      then (if inRun then replaceWsRuns true rest
            else dash :: replaceWsRuns true rest)
      else c :: replaceWsRuns false rest
  end.

(** A match of [[^>]*>] at the start of [s]: what follows the match. *)
Fixpoint skipTag (s : jstring) : option jstring :=
  match s with
  | [] => None
  | c :: rest => if bool_decide (c = gt_sign) then Some rest else skipTag rest
  end.

(** A match of [<[^>]*>] at the start of [s]: what follows the match. *)
Definition matchTag (s : jstring) : option jstring :=
  match s with
  | [] => None
  | c :: rest => if bool_decide (c = lt_sign) then skipTag rest else None
  end.

(** [s.replace(/<[^>]*>/g, '')]: the leftmost match is removed and the
    scan goes on behind it; where no match starts, the code unit is
    kept. *)
Equations? stripTags (s : jstring) : jstring by wf (length s) lt :=
  stripTags [] := [];
  stripTags (c :: rest) with Logic.inspect (matchTag (c :: rest)) := {
    | exist _ (Some behind) Hm => stripTags behind;
    | exist _ None _ => c :: stripTags rest }.
Proof.
  simpl in Hm. case_bool_decide; [|done]. clear -Hm.
  revert behind Hm. induction rest as [|d rest IH]; intros behind; simpl.
  - done.
  - case_bool_decide; [intros [= ->]; lia|].
    intros ?%IH. simpl in *. lia.
Qed.

End JsString.

(** [category.toLowerCase().replace(/\s+/g, '-')], the id of a category
    name. *)
Definition categoryIdOf (category : jstring) : jstring :=
  JsString.replaceWsRuns false (JsString.toLowerCase category).

(** A string or [null] in a condition. *)
Definition truthy (s : option jstring) : bool :=
  match s with
  | Some (_ :: _) => true
  | _ => false
  end.

(** [utils.stripHtml]: [html] is [None] for [null] and [undefined]. *)
Definition stripHtml (html : option jstring) : jstring :=
  if truthy html
  then JsString.trim (JsString.stripTags (default [] html))
  else [].

(** A complete tag: a ['<'] with a ['>'] somewhere behind it. *)
Definition hasCompleteTag (s : jstring) : Prop :=
  ∃ i j, (i < j)%nat ∧ s !! i = Some JsString.lt_sign
         ∧ s !! j = Some JsString.gt_sign.

(** ** Grouping by source *)

(** One step of the [reduce] of [groupedFeeds]. *)
Definition groupStep (acc : gmap jstring (list RSSItem.t)) (feed : RSSItem.t)
  : gmap jstring (list RSSItem.t) :=
  let acc1 :=
    match acc !! RSSItem.feedName feed with
    | None => <[RSSItem.feedName feed := []]> acc
    | Some _ => acc
    end in
  alter (λ group, group ++ [feed]) (RSSItem.feedName feed) acc1.

Definition groupedFeeds (feeds : list RSSItem.t) : gmap jstring (list RSSItem.t) :=
  fold_left groupStep feeds ∅.


(** ** Categories generated from the configuration *)

Definition categoryColors : list jstring :=
  [js "#3B82F6"; js "#10B981"; js "#F59E0B"; js "#EF4444";
   js "#8B5CF6"; js "#06B6D4"; js "#84CC16"; js "#F97316";
   js "#EC4899"; js "#6366F1"; js "#14B8A6"; js "#F43F5E"].

(** The entry made for a category name that is not yet in [categoryMap]. *)
Definition newCategory (colorIndex : nat) (feedConfig : RSSFeedConfig.t)
  : RSSCategory.t :=
  RSSCategory.mk
    (categoryIdOf (RSSFeedConfig.category feedConfig))
    (RSSFeedConfig.category feedConfig)
    (default [] (categoryColors !! (colorIndex mod length categoryColors)%nat))
    0.

(** The body of [config.feeds.forEach] in [loadCategoriesAndConfig] of
    src/App.tsx. The [Map] is the list of its entries in insertion order,
    together with [colorIndex]. *)
Definition categoryStep (acc : list (jstring * RSSCategory.t) * nat)
    (feedConfig : RSSFeedConfig.t) : list (jstring * RSSCategory.t) * nat :=
  let categoryMap := acc.1 in
  let colorIndex := acc.2 in
  if decide (RSSFeedConfig.category feedConfig ∈ categoryMap.*1)
  then acc
  else (categoryMap ++
          [(RSSFeedConfig.category feedConfig, newCategory colorIndex feedConfig)],
        S colorIndex).

(** [Array.from(categoryMap.values())] after the loop. *)
Definition buildCategories (config : RSSConfig.t) : list RSSCategory.t :=
  (fold_left categoryStep (RSSConfig.feeds config) ([], 0%nat)).1.*2.

(** The filter of [loadFeedsForCategory]. *)
Definition feedConfigsOf (config : RSSConfig.t) (categoryId : jstring)
  : list RSSFeedConfig.t :=
  filter (λ f, categoryIdOf (RSSFeedConfig.category f) = categoryId)
         (RSSConfig.feeds config).

(** ** Sorting by publication time *)

(** [b.pubDate.getTime() - a.pubDate.getTime() <= 0]; a comparison that
    involves an invalid date gives [NaN], which [sort] reads as [0]. *)
Definition newerFirst (a b : RSSItem.t) : Prop :=
  match RSSItem.pubDate a, RSSItem.pubDate b with
  | Some ta, Some tb => (tb ≤ ta)%Z
  | _, _ => True
  end.

Global Instance newerFirst_dec : RelDecision newerFirst.
Proof.
  intros a b. unfold newerFirst.
  destruct (RSSItem.pubDate a), (RSSItem.pubDate b); apply _.
Defined.

(** [feeds.sort((a, b) => b.pubDate.getTime() - a.pubDate.getTime())].
    The order is the engine's when some date is invalid; only that the
    result permutes the input is used below. *)
Definition sortByTime (feeds : list RSSItem.t) : list RSSItem.t :=
  merge_sort newerFirst feeds.

(** ** Items as [fetchRSSFeed] tags them *)

(** [category: category] and [feedName: ...] in the object [fetchRSSFeed]
    builds for an item. *)
Definition withCategoryAndFeedName (category : RSSCategory.t)
    (feedName : jstring) (item : RSSItem.t) : RSSItem.t :=
  RSSItem.mk (RSSItem.id item) (RSSItem.title item)
    (RSSItem.description item) (RSSItem.link item) (RSSItem.pubDate item)
    category (RSSItem.source item) (RSSItem.author item) feedName.

(** ** The component of src/App.tsx *)

Module App.

Record state := mkState {
  feedsByCategory : gmap jstring (list RSSItem.t);
  categories : list RSSCategory.t;
  selectedCategory : option jstring;
  loading : bool;
  error : option jstring;
  expandedSources : gset jstring;
  rssConfig : option RSSConfig.t
}.

(** The initial values of the [useState] calls. *)
Definition init : state := mkState ∅ [] None false None ∅ None.

Definition setFeedsByCategory
    (f : gmap jstring (list RSSItem.t) → gmap jstring (list RSSItem.t))
    (s : state) : state :=
  mkState (f (feedsByCategory s)) (categories s) (selectedCategory s)
          (loading s) (error s) (expandedSources s) (rssConfig s).
Definition setCategories (v : list RSSCategory.t) (s : state) : state :=
  mkState (feedsByCategory s) v (selectedCategory s)
          (loading s) (error s) (expandedSources s) (rssConfig s).
Definition setSelectedCategory (v : option jstring) (s : state) : state :=
  mkState (feedsByCategory s) (categories s) v
          (loading s) (error s) (expandedSources s) (rssConfig s).
Definition setLoading (v : bool) (s : state) : state :=
  mkState (feedsByCategory s) (categories s) (selectedCategory s)
          v (error s) (expandedSources s) (rssConfig s).
Definition setError (v : option jstring) (s : state) : state :=
  mkState (feedsByCategory s) (categories s) (selectedCategory s)
          (loading s) v (expandedSources s) (rssConfig s).
Definition setExpandedSources (v : gset jstring) (s : state) : state :=
  mkState (feedsByCategory s) (categories s) (selectedCategory s)
          (loading s) (error s) v (rssConfig s).
Definition setRssConfig (v : option RSSConfig.t) (s : state) : state :=
  mkState (feedsByCategory s) (categories s) (selectedCategory s)
          (loading s) (error s) (expandedSources s) v.

(** What the proxy answers for a feed: the items [fetchRSSFeed] builds
    from the response ([id], [title], [description], [link], [pubDate],
    [source], [author]), or [None] where [fetchRSSFeed] returns [null]
    (status not ['ok'], no [items], a failed request). *)
Definition network := RSSFeedConfig.t → option (list RSSItem.t).

(** [fetchRSSFeed]: the two fields that come from the arguments are set
    as the code sets them, [category: category] and
    [feedName: feedConfig.name]. *)
Definition fetchRSSFeed (net : network) (feedConfig : RSSFeedConfig.t)
    (category : RSSCategory.t) : option (list RSSItem.t) :=
  match net feedConfig with
  | Some items =>
      Some (withCategoryAndFeedName category (RSSFeedConfig.name feedConfig)
            <$> items)
  | None => None
  end.

(** '分类不存在' *)
Definition noSuchCategory : jstring := [20998; 31867; 19981; 23384; 22312]%N.

(** What [loadCategoriesAndConfig] is given: the parsed configuration,
    or the message of the error thrown on the way. *)
Definition loadCategoriesAndConfig (fetched : jstring + RSSConfig.t)
    (s : state) : state :=
  let s := setError None (setLoading true s) in
  match fetched with
  | inr config =>
      setLoading false
        (setCategories (buildCategories config)
           (setRssConfig (Some config) s))
  | inl message => setLoading false (setError (Some message) s)
  end.

(** [loadFeedsForCategory], with every [await] resolved at once. *)
Definition loadFeedsForCategory (net : network) (categoryId : jstring)
    (s : state) : state :=
  match rssConfig s with
  | None => s
  | Some config =>
      let s1 := setError None (setLoading true s) in
      match list_find (λ c, RSSCategory.id c = categoryId) (categories s) with
      | None => setLoading false (setError (Some noSuchCategory) s1)
      | Some (_, category) =>
          let feedConfigs := feedConfigsOf config categoryId in
          let results :=
            (λ feedConfig, fetchRSSFeed net feedConfig category)
            <$> feedConfigs in
          (* fulfilled with a value: pushed; fulfilled with null: skipped *)
          let allFeeds := sortByTime (concat (default [] <$> results)) in
          let allSources : gset jstring :=
            list_to_set (RSSItem.feedName <$> allFeeds) in
          setLoading false
            (setExpandedSources allSources
               (setFeedsByCategory (λ prev, <[categoryId := allFeeds]> prev)
                  s1))
      end
  end.

(** [loadAllFeeds] returns at once. *)
Definition loadAllFeeds (s : state) : state := s.

Definition handleCategoryClick (net : network) (categoryId : option jstring)
    (s : state) : state :=
  let s1 := setSelectedCategory categoryId s in
  match categoryId with
  | None => loadAllFeeds s1
  | Some c =>
      match feedsByCategory s !! c with
      | None => loadFeedsForCategory net c s1
      | Some feeds =>
          setExpandedSources (list_to_set (RSSItem.feedName <$> feeds)) s1
      end
  end.

Definition handleRefresh (net : network) (s : state) : state :=
  let s1 := setFeedsByCategory (λ _, ∅) s in
  match selectedCategory s with
  | None => loadAllFeeds s1
  | Some c =>
      if truthy (Some c) then loadFeedsForCategory net c s1 else s1
  end.

(** [Object.values(feedsByCategory).flat()], in no particular order. *)
Definition allCached (cache : gmap jstring (list RSSItem.t)) : list RSSItem.t :=
  concat (snd <$> map_to_list cache).

Definition filteredFeeds (selectedCategory : option jstring)
    (cache : gmap jstring (list RSSItem.t)) : list RSSItem.t :=
  match selectedCategory with
  | None => allCached cache
  | Some c => if truthy (Some c) then Cache.feedsOf cache c else []
  end.

Definition toggleAllSources (s : state) : state :=
  let groups := groupedFeeds (filteredFeeds (selectedCategory s) (feedsByCategory s)) in
  if decide (size (expandedSources s) = size (dom groups))
  then setExpandedSources ∅ s
  else setExpandedSources (dom groups) s.

(** What can happen to the component. *)
Inductive event :=
| ConfigArrived (fetched : jstring + RSSConfig.t)
| CategoryClick (net : network) (categoryId : option jstring)
| Refresh (net : network)
| ToggleSource (sourceName : jstring)
| ToggleAllSources.

Definition handle (e : event) (s : state) : state :=
  match e with
  | ConfigArrived fetched => loadCategoriesAndConfig fetched s
  | CategoryClick net c => handleCategoryClick net c s
  | Refresh net => handleRefresh net s
  | ToggleSource n => setExpandedSources (toggleSource n (expandedSources s)) s
  | ToggleAllSources => toggleAllSources s
  end.

Inductive reachable : state → Prop :=
| reach_init : reachable init
| reach_step e s : reachable s → reachable (handle e s).

(** The claim that a refresh touches the cache and the two flags only:
    other categories end with no cached feeds, and every other state
    variable is as before. *)
Definition refresh_touches_only_cache_and_flags (s s' : state) : Prop :=
  (∀ k, Some k ≠ selectedCategory s → Cache.feedsOf (feedsByCategory s') k = [])
  ∧ categories s' = categories s
  ∧ selectedCategory s' = selectedCategory s
  ∧ expandedSources s' = expandedSources s
  ∧ rssConfig s' = rssConfig s.

End App.

(** ** The older component, with one list of feeds *)

Module Legacy.

Definition filteredFeeds (selectedCategory : option jstring)
    (feeds : list RSSItem.t) : list RSSItem.t :=
  if truthy selectedCategory
  then filter (λ feed, Some (RSSCategory.id (RSSItem.category feed))
                       = selectedCategory) feeds
  else feeds.

End Legacy.



(** ** C8 as claimed, and configurations to try it on *)

(** The generated ids are pairwise distinct. *)
Definition distinct_category_ids (categories : list RSSCategory.t) : Prop :=
  NoDup (RSSCategory.id <$> categories).

(** The filter by id selects the feed configs of one category entry, those
    that have its name. [categoryOf] reads the category of a feed config. *)
Definition filter_selects_one_entry {FC} (categoryOf : FC → jstring)
    (feeds : list FC) (categories : list RSSCategory.t) : Prop :=
  ∀ c, c ∈ categories →
       filter (λ f, categoryIdOf (categoryOf f) = RSSCategory.id c) feeds
       = filter (λ f, categoryOf f = RSSCategory.name c) feeds.

(** No two different category names of the configuration have one id. *)
Definition names_normalize_apart {FC} (categoryOf : FC → jstring)
    (feeds : list FC) : Prop :=
  ∀ f g, f ∈ feeds → g ∈ feeds →
         categoryIdOf (categoryOf f) = categoryIdOf (categoryOf g) →
         categoryOf f = categoryOf g.

(** What the loop of [loadCategoriesAndConfig] keeps true of the entries
    of [categoryMap] once it has gone through the feed configs [fcs]: one
    entry per category name met, named and identified after it. *)
Definition categoryMap_ok {FC} (categoryOf : FC → jstring) (fcs : list FC)
    (categoryMap : list (jstring * RSSCategory.t)) : Prop :=
  NoDup categoryMap.*1
  ∧ (∀ k c, (k, c) ∈ categoryMap →
       RSSCategory.name c = k ∧ RSSCategory.id c = categoryIdOf k
       ∧ ∃ f, f ∈ fcs ∧ categoryOf f = k)
  ∧ (∀ f, f ∈ fcs → categoryOf f ∈ categoryMap.*1).

Definition twoSpellings : RSSConfig.t :=
  RSSConfig.mk
    [RSSFeedConfig.mk (js "Hacker News") (js "https://news.example/rss")
       (js "Tech News") (js "links");
     RSSFeedConfig.mk (js "Lobsters") (js "https://lobste.example/rss")
       (js "tech  news") (js "more links")].

Definition oneSpelling : RSSConfig.t :=
  RSSConfig.mk
    [RSSFeedConfig.mk (js "Hacker News") (js "https://news.example/rss")
       (js "Tech News") (js "links");
     RSSFeedConfig.mk (js "Lobsters") (js "https://lobste.example/rss")
       (js "Tech News") (js "more links");
     RSSFeedConfig.mk (js "Daily") (js "https://daily.example/rss")
       (js "World") (js "news")].

(** ** JavaScript values, as far as [fetchRSSFeed] looks at them *)

Module Js.

Set Warnings "-register-all".

(** The values [response.json()] can give, with [undefined] for a
    property that is not there and a function for a method read off a
    primitive. A number is kept as an integer: the code only asks
    whether it is zero. An object is the list of its own properties. *)
Inductive value :=
| VUndefined
| VNull
| VBool (b : bool)
| VNumber (n : Z)
| VString (s : jstring)
| VArray (items : list value)
| VObject (props : list (jstring * value))
| VFunction.

(** Evaluation that may throw. *)
Inductive exn (A : Type) :=
| Ret (a : A)
| Throw.
Arguments Ret {A} a.
Arguments Throw {A}.

Definition bind {A B} (m : exn A) (k : A → exn B) : exn B :=
  match m with
  | Ret a => k a
  | Throw => Throw
  end.

Global Instance exn_ret : MRet exn := @Ret.
Global Instance exn_bind : MBind exn := λ A B k m, bind m k.

(** [ToBoolean] *)
Definition toBoolean (v : value) : bool :=
  match v with
  | VUndefined | VNull => false
  | VBool b => b
  | VNumber n => negb (n =? 0)%Z
  | VString s => match s with [] => false | _ => true end
  | VArray _ | VObject _ | VFunction => true
  end.

Definition isNullish (v : value) : bool :=
  match v with
  | VUndefined | VNull => true
  | _ => false
  end.

Definition isString (v : value) : bool :=
  match v with
  | VString _ => true
  | _ => false
  end.

Fixpoint lookupProp (p : jstring) (props : list (jstring * value)) : value :=
  match props with
  | [] => VUndefined
  | (k, v) :: rest => if decide (k = p) then v else lookupProp p rest
  end.

(** [v.p]. Of the property names [fetchRSSFeed] reads, a string has
    [length] and the method [link], an array has [length] and [map];
    the other names are own properties of an object or absent. *)
Definition get (v : value) (p : jstring) : exn value :=
  match v with
  | VUndefined | VNull => Throw
  | VObject props => Ret (lookupProp p props)
  | VString s =>
      if decide (p = js "length") then Ret (VNumber (Z.of_nat (length s)))
      else if decide (p = js "link") then Ret VFunction
      else Ret VUndefined
  | VArray items =>
      if decide (p = js "length") then Ret (VNumber (Z.of_nat (length items)))
      else if decide (p = js "map") then Ret VFunction
      else Ret VUndefined
  | VBool _ | VNumber _ | VFunction => Ret VUndefined
  end.

(** [v?.p] *)
Definition getOpt (v : value) (p : jstring) : exn value :=
  if isNullish v then Ret VUndefined else get v p.

(** [a || b], with [b] evaluated only if [a] is falsy. *)
Definition or (a : value) (b : exn value) : exn value :=
  if toBoolean a then Ret a else b.

(** [v === 'literal'] *)
Definition isStringLit (v : value) (s : jstring) : bool :=
  match v with
  | VString s' => bool_decide (s' = s)
  | _ => false
  end.

Definition isArray (v : value) : bool :=
  match v with
  | VArray _ => true
  | _ => false
  end.

End Js.

(** ** The batched component [RSSPage] and its hooks *)

Module Page.
Import Js.

(** [CONFIG] *)
Definition BATCH_SIZE : nat := 3.
Definition BATCH_DELAY : nat := 100.
Definition CATEGORY_DELAY : nat := 200.

(** An entry of [rssConfig.feeds]; [title] is [None] where the entry
    has no such property. *)
Module FeedConfig.
Record t := mk {
  title : option jstring;
  name : jstring;
  url : jstring;
  category : jstring
}.
End FeedConfig.

(** [feedConfig.title || feedConfig.name] *)
Definition titleOrName (feedConfig : FeedConfig.t) : jstring :=
  if truthy (FeedConfig.title feedConfig)
  then default [] (FeedConfig.title feedConfig)
  else FeedConfig.name feedConfig.

(** What [fetchRSSFeed] returns an array of. [id] holds the three parts
    of the template string of [utils.generateId]; [pubDate] holds the
    argument of [new Date]. *)
Module Item.
Record t := mk {
  id : jstring * Z * nat;
  title : value;
  description : jstring;
  link : value;
  pubDate : value;
  category : RSSCategory.t;
  source : value;
  author : value;
  feedName : jstring
}.
End Item.

Definition untitled : jstring := [26080; 26631; 39064]%N.       (* '无标题' *)
Definition noDescription : jstring := [26080; 25551; 36848]%N.  (* '无描述' *)

(** [utils.stripHtml] applied to any value: a truthy value that is not
    a string has no [replace] method. *)
Definition stripHtmlValue (html : value) : exn jstring :=
  match html with
  | VString s => Ret (stripHtml (Some s))
  | v => if toBoolean v then Throw else Ret []
  end.

(** [typeof x === 'string' ? x : (x?._text || x?._cdata || fallback)] *)
Definition textOf (x : value) (fallback : exn value) : exn value :=
  if isString x then Ret x
  else
    text ← getOpt x (js "_text");
    or text (cdata ← getOpt x (js "_cdata"); or cdata fallback).

(** [Array.isArray(v) ? v : [v]] *)
Definition asArray (v : value) : value :=
  if isArray v then v else VArray [v].

(** The chain of [if]s that finds [items] and [feedTitle] in the
    response. *)
Definition findItems (data : value) : exn (value * value) :=
  status ← get data (js "status");
  items ← get data (js "items");
  if isStringLit status (js "ok") && toBoolean items then
    feed ← get data (js "feed");
    feedTitle ← (t ← getOpt feed (js "title");
                 or t (n ← getOpt feed (js "name"); or n (Ret (VString []))));
    Ret (items, feedTitle)
  else if isArray data then
    Ret (data, VString [])
  else
    rss ← get data (js "rss");
    channel ← getOpt rss (js "channel");
    item ← getOpt channel (js "item");
    if toBoolean item then
      feedTitle ← (t ← get channel (js "title");
                   or t (n ← get channel (js "name"); or n (Ret (VString []))));
      Ret (asArray item, feedTitle)
    else
      feed ← get data (js "feed");
      entry ← getOpt feed (js "entry");
      if toBoolean entry then
        feedTitle ← (t ← get feed (js "title");
                     or t (n ← get feed (js "name"); or n (Ret (VString []))));
        Ret (asArray entry, feedTitle)
      else if toBoolean items && isArray items then
        feedTitle ← (t ← get data (js "title");
                     or t (n ← get data (js "name"); or n (Ret (VString []))));
        Ret (items, feedTitle)
      else
        Ret (VArray [], VString []).

(** The callback of [items.map]. [now] is what [Date.now()] gives. *)
Definition normalizeItem (now : Z) (feedConfig : FeedConfig.t)
    (category : RSSCategory.t) (feedTitle : value)
    (index : nat) (item : value) : exn Item.t :=
  let configName := VString (titleOrName feedConfig) in
  title ← (t ← get item (js "title");
           or t (n ← get item (js "name"); or n (Ret (VString untitled))));
  description ← (d ← get item (js "description");
                 or d (c ← get item (js "content");
                       or c (s ← get item (js "summary");
                             or s (Ret (VString noDescription)))));
  link ← (l ← get item (js "link");
          or l (u ← get item (js "url"); or u (Ret (VString (js "#")))));
  pubDate ← (p ← get item (js "pubDate");
             or p (q ← get item (js "published");
                   or q (u ← get item (js "updated");
                         or u (d ← get item (js "date");
                               or d (Ret (VNumber now))))));
  author ← (a ← get item (js "author");
            or a (c ← get item (js "creator");
                  or c (or feedTitle (Ret configName))));
  title' ← textOf title (Ret (VString untitled));
  descriptionText ← textOf description (Ret (VString noDescription));
  description' ← stripHtmlValue descriptionText;
  link' ← textOf link (Ret (VString (js "#")));
  source ← or feedTitle (Ret configName);
  author' ← textOf author (Ret configName);
  Ret (Item.mk (titleOrName feedConfig, now, index) title' description'
         link' pubDate category source author' (titleOrName feedConfig)).

(** [items.map((item, index) => ...)], from index [index] on. *)
Fixpoint mapItems (f : nat → value → exn Item.t) (index : nat)
    (items : list value) : exn (list Item.t) :=
  match items with
  | [] => Ret []
  | item :: rest =>
      r ← f index item; rs ← mapItems f (S index) rest; Ret (r :: rs)
  end.

(** The [try] block of [fetchRSSFeed]. [response] is the parsed body,
    or [None] where the request fails, the status is not ok or the body
    does not parse, each of which throws. Where [items] is not an array
    the code returns [null] or throws at [items.map]; either way the
    function returns [null], given here as the returned value. *)
Definition fetchBody (now : Z) (response : option value)
    (feedConfig : FeedConfig.t) (category : RSSCategory.t)
  : exn (option (list Item.t)) :=
  match response with
  | None => Throw
  | Some data =>
      found ← findItems data;
      match found.1 with
      | VArray (item :: rest) =>
          result ← mapItems (normalizeItem now feedConfig category found.2)
                      0 (item :: rest);
          Ret (Some result)
      | _ => Ret None
      end
  end.

(** [fetchRSSFeed]: the [catch] block logs and returns [null]. *)
Definition fetchRSSFeed (now : Z) (response : option value)
    (feedConfig : FeedConfig.t) (category : RSSCategory.t)
  : option (list Item.t) :=
  match fetchBody now response feedConfig category with
  | Ret result => result
  | Throw => None
  end.

(** *** Batches *)

(** [a.slice(from, to)] *)
Definition slice {A} (from to : nat) (a : list A) : list A :=
  take (to - from) (drop from a).

(** What the loop of [loadFeedsForCategory] does, in program order. *)
Inductive action :=
| LaunchBatch (batch : list FeedConfig.t)
| Wait (ms : nat).

(** The [for] loop, from index [i] on. *)
Equations? batchLoop (feedConfigs : list FeedConfig.t) (i : nat)
  : list action by wf (length feedConfigs - i)%nat lt :=
  batchLoop feedConfigs i with decide (i < length feedConfigs)%nat := {
    | left _ =>
        LaunchBatch (slice i (i + BATCH_SIZE) feedConfigs)
        :: (if decide (i + BATCH_SIZE < length feedConfigs)%nat
            then [Wait BATCH_DELAY] else [])
        ++ batchLoop feedConfigs (i + BATCH_SIZE);
    | right _ => [] }.
Proof. unfold BATCH_SIZE. lia. Qed.

(** Batches launched one after the other with a pause between two. *)
Fixpoint pausedBetween (batches : list (list FeedConfig.t)) : list action :=
  match batches with
  | [] => []
  | batch :: rest =>
      LaunchBatch batch ::
      match rest with
      | [] => []
      | _ :: _ => Wait BATCH_DELAY :: pausedBetween rest
      end
  end.

(** Every batch holds between one and [BATCH_SIZE] feed configs, and
    every batch but the last holds [BATCH_SIZE]. *)
Definition batches_full (batches : list (list FeedConfig.t)) : Prop :=
  ∀ k b, batches !! k = Some b →
         (1 ≤ length b ≤ BATCH_SIZE)%nat
         ∧ (S k < length batches → length b = BATCH_SIZE)%nat.

Definition feedNumbered (n : N) : FeedConfig.t :=
  FeedConfig.mk (Some (js "feed" ++ [48 + n]%N)) (js "feed" ++ [48 + n]%N)
                (js "https://example.org/" ++ [48 + n]%N) (js "Tech").

Definition sevenFeeds : list FeedConfig.t :=
  feedNumbered <$> [1; 2; 3; 4; 5; 6; 7]%N.

(** *** State *)

(** The state of the [useRSSData] hook. *)
Record RSSData := mkRSSData {
  feedsByCategory : gmap jstring (list RSSItem.t);
  categories : list RSSCategory.t;
  rssConfig : option (list FeedConfig.t);
  loading : bool;
  error : option jstring
}.

(** The state of the [useLoadingState] hook. A feed is entered under
    [feedConfig.title], which may be [undefined]. *)
Record LoadingState := mkLoadingState {
  loadingFeeds : gset (option jstring);
  failedFeeds : list (option jstring);
  loadedFeedsCount : nat
}.

Record state := mkState {
  rssData : RSSData;
  loadingState : LoadingState;
  customRssUrl : jstring;
  isAddingCustomFeed : bool;
  selectedCategory : option jstring;
  expandedSources : gset (option jstring);
  isSorted : bool
}.

Definition init : state :=
  mkState (mkRSSData ∅ [] None false None) (mkLoadingState ∅ [] 0)
          [] false None ∅ false.

Definition setRSSData (f : RSSData → RSSData) (s : state) : state :=
  mkState (f (rssData s)) (loadingState s) (customRssUrl s)
          (isAddingCustomFeed s) (selectedCategory s) (expandedSources s)
          (isSorted s).
Definition setLoadingState (f : LoadingState → LoadingState) (s : state)
  : state :=
  mkState (rssData s) (f (loadingState s)) (customRssUrl s)
          (isAddingCustomFeed s) (selectedCategory s) (expandedSources s)
          (isSorted s).
Definition setCustomRssUrl (v : jstring) (s : state) : state :=
  mkState (rssData s) (loadingState s) v
          (isAddingCustomFeed s) (selectedCategory s) (expandedSources s)
          (isSorted s).
Definition setIsAddingCustomFeed (v : bool) (s : state) : state :=
  mkState (rssData s) (loadingState s) (customRssUrl s)
          v (selectedCategory s) (expandedSources s) (isSorted s).
Definition setSelectedCategory (v : option jstring) (s : state) : state :=
  mkState (rssData s) (loadingState s) (customRssUrl s)
          (isAddingCustomFeed s) v (expandedSources s) (isSorted s).
Definition setExpandedSources (v : gset (option jstring)) (s : state)
  : state :=
  mkState (rssData s) (loadingState s) (customRssUrl s)
          (isAddingCustomFeed s) (selectedCategory s) v (isSorted s).
Definition setIsSorted (v : bool) (s : state) : state :=
  mkState (rssData s) (loadingState s) (customRssUrl s)
          (isAddingCustomFeed s) (selectedCategory s) (expandedSources s) v.

Definition setFeedsByCategory
    (f : gmap jstring (list RSSItem.t) → gmap jstring (list RSSItem.t))
  : state → state :=
  setRSSData (λ d, mkRSSData (f (feedsByCategory d)) (categories d)
                     (rssConfig d) (loading d) (error d)).
Definition setCategories (v : list RSSCategory.t) : state → state :=
  setRSSData (λ d, mkRSSData (feedsByCategory d) v
                     (rssConfig d) (loading d) (error d)).
Definition setRssConfig (v : option (list FeedConfig.t)) : state → state :=
  setRSSData (λ d, mkRSSData (feedsByCategory d) (categories d)
                     v (loading d) (error d)).
Definition setLoading (v : bool) : state → state :=
  setRSSData (λ d, mkRSSData (feedsByCategory d) (categories d)
                     (rssConfig d) v (error d)).
Definition setError (v : option jstring) : state → state :=
  setRSSData (λ d, mkRSSData (feedsByCategory d) (categories d)
                     (rssConfig d) (loading d) v).

(** The callbacks of [useRSSData]. *)
Definition addFeedsToCategory (categoryId : jstring)
    (newFeeds : list RSSItem.t) : state → state :=
  setFeedsByCategory (Cache.addFeedsToCategory categoryId newFeeds).
Definition clearCategoryFeeds (categoryId : jstring) : state → state :=
  setFeedsByCategory (Cache.clearCategoryFeeds categoryId).
Definition clearAllFeeds : state → state :=
  setFeedsByCategory Cache.clearAllFeeds.

(** The callbacks of [useLoadingState]. *)
Definition addLoadingFeed (feedName : option jstring) : state → state :=
  setLoadingState (λ l, mkLoadingState ({[feedName]} ∪ loadingFeeds l)
                          (failedFeeds l) (loadedFeedsCount l)).
Definition removeLoadingFeed (feedName : option jstring) : state → state :=
  setLoadingState (λ l, mkLoadingState (loadingFeeds l ∖ {[feedName]})
                          (failedFeeds l) (loadedFeedsCount l)).
Definition addFailedFeed (feedName : option jstring) : state → state :=
  setLoadingState (λ l, mkLoadingState (loadingFeeds l)
                          (failedFeeds l ++ [feedName]) (loadedFeedsCount l)).
Definition incrementLoadedCount : state → state :=
  setLoadingState (λ l, mkLoadingState (loadingFeeds l)
                          (failedFeeds l) (loadedFeedsCount l + 1)).
Definition resetLoadingState : state → state :=
  setLoadingState (λ _, mkLoadingState ∅ [] 0).

(** *** Categories *)

(** The body of [config.feeds.forEach] in [loadCategoriesAndConfig]:
    the colour goes by the index of the feed config. *)
Definition categoryStep (acc : list (jstring * RSSCategory.t) * nat)
    (feedConfig : FeedConfig.t) : list (jstring * RSSCategory.t) * nat :=
  let categoryMap := acc.1 in
  let index := acc.2 in
  if decide (FeedConfig.category feedConfig ∈ categoryMap.*1)
  then (categoryMap, S index)
  else (categoryMap ++
          [(FeedConfig.category feedConfig,
            RSSCategory.mk
              (categoryIdOf (FeedConfig.category feedConfig))
              (FeedConfig.category feedConfig)
              (default [] (categoryColors
                             !! (index mod length categoryColors)%nat))
              0)],
        S index).

Definition buildCategories (feeds : list FeedConfig.t) : list RSSCategory.t :=
  (fold_left categoryStep feeds ([], 0%nat)).1.*2.

Definition loadCategoriesAndConfig (fetched : jstring + list FeedConfig.t)
    (s : state) : state :=
  let s := setError None (setLoading true s) in
  match fetched with
  | inr feeds =>
      setLoading false
        (setCategories (buildCategories feeds) (setRssConfig (Some feeds) s))
  | inl message => setLoading false (setError (Some message) s)
  end.

(** *** Loading the feeds of a category *)

(** The filter of [loadFeedsForCategory]. *)
Definition feedConfigsOf (feeds : list FeedConfig.t) (categoryId : jstring)
  : list FeedConfig.t :=
  filter (λ f, categoryIdOf (FeedConfig.category f) = categoryId) feeds.

(** What an action of the loop does at once: the callback of
    [batch.forEach] runs up to its first [await]. *)
Definition perform (s : state) (a : action) : state :=
  match a with
  | LaunchBatch batch =>
      fold_left (λ s feedConfig, addLoadingFeed (FeedConfig.title feedConfig) s)
                batch s
  | Wait _ => s
  end.

(** '分类不存在' *)
Definition noSuchCategory : jstring := [20998; 31867; 19981; 23384; 22312]%N.

(** [loadFeedsForCategory] up to its return, no response having come
    in yet. *)
Definition loadFeedsForCategory (categoryId : jstring) (s : state) : state :=
  if decide (categoryId = js "custom") then s
  else
    match rssConfig (rssData s) with
    | None => s
    | Some feeds =>
        let s1 :=
          resetLoadingState
            (clearCategoryFeeds categoryId (setError None s)) in
        match list_find (λ c, RSSCategory.id c = categoryId)
                        (categories (rssData s)) with
        | None => setError (Some noSuchCategory) s1
        | Some _ =>
            let feedConfigs := feedConfigsOf feeds categoryId in
            fold_left perform (batchLoop feedConfigs 0) s1
        end
    end.

(** The rest of the callback of [batch.forEach], run when the response
    for [feedConfig] has come in. [fetched] holds the items built from
    the response, or [None] for [null]; [categoryId] and [category] are
    those of the call of [loadFeedsForCategory] that sent the request. *)
Definition fetchSettled (categoryId : jstring) (category : RSSCategory.t)
    (feedConfig : FeedConfig.t) (fetched : option (list RSSItem.t))
    (s : state) : state :=
  let result :=
    fmap (M := list)
      (withCategoryAndFeedName category (titleOrName feedConfig))
      (default [] fetched) in
  let s1 :=
    match result with
    | _ :: _ =>
        incrementLoadedCount
          (setExpandedSources
             ({[FeedConfig.title feedConfig]} ∪ expandedSources s)
             (addFeedsToCategory categoryId result s))
    | [] => addFailedFeed (FeedConfig.title feedConfig) s
    end in
  removeLoadingFeed (FeedConfig.title feedConfig) s1.

(** The sources of a list of feeds, as a [Set]. *)
Definition sourcesOf (feeds : list RSSItem.t) : gset (option jstring) :=
  list_to_set ((λ feed, Some (RSSItem.feedName feed)) <$> feeds).

Definition handleCategoryClick (categoryId : jstring) (s : state) : state :=
  let s1 := setIsSorted false (setSelectedCategory (Some categoryId) s) in
  let cachedFeeds := Cache.feedsOf (feedsByCategory (rssData s)) categoryId in
  if decide (categoryId = js "custom") then
    match cachedFeeds with
    | [] => s1
    | _ :: _ => setExpandedSources (sourcesOf cachedFeeds) s1
    end
  else
    match cachedFeeds with
    | [] => loadFeedsForCategory categoryId s1
    | _ :: _ => setExpandedSources (sourcesOf cachedFeeds) s1
    end.

Definition handleRefresh (s : state) : state :=
  let s1 := setIsSorted false (resetLoadingState (clearAllFeeds s)) in
  match selectedCategory s with
  | Some c => if truthy (Some c) then loadFeedsForCategory c s1 else s1
  | None => s1
  end.

(** *** A feed added by hand *)

Definition customTitle : jstring :=
  [33258; 23450; 20041; 82; 83; 83; 28304]%N.             (* '自定义RSS源' *)
Definition customName : jstring := [33258; 23450; 20041]%N.  (* '自定义' *)
Definition enterAddress : jstring :=                   (* '请输入有效的RSS地址' *)
  [35831; 36755; 20837; 26377; 25928; 30340; 82; 83; 83; 22320; 22336]%N.
Definition cannotFetch : jstring :=     (* '无法获取RSS内容，请检查URL是否正确' *)
  [26080; 27861; 33719; 21462; 82; 83; 83; 20869; 23481; 65292; 35831;
   26816; 26597; 85; 82; 76; 26159; 21542; 27491; 30830]%N.

Definition customCategory : RSSCategory.t :=
  RSSCategory.mk (js "custom") customName (js "#8B5CF6") 0.

(** [handleAddCustomFeed], the request answered at once with
    [fetched]. *)
Definition handleAddCustomFeed (fetched : option (list RSSItem.t))
    (s : state) : state :=
  match JsString.trim (customRssUrl s) with
  | [] => setError (Some enterAddress) s
  | _ :: _ =>
      let s1 := setError None (setIsAddingCustomFeed true s) in
      let result :=
        fmap (M := list) (withCategoryAndFeedName customCategory customTitle)
             (default [] fetched) in
      let s2 :=
        match result with
        | _ :: _ =>
            setSelectedCategory (Some (js "custom"))
              (incrementLoadedCount
                 (setExpandedSources ({[Some customTitle]} ∪ expandedSources s1)
                    (addFeedsToCategory (js "custom") result s1)))
        | [] => setError (Some cannotFetch) s1
        end in
      setIsAddingCustomFeed false s2
  end.

(** *** What is shown *)

Definition currentFeeds (selectedCategory : option jstring)
    (cache : gmap jstring (list RSSItem.t)) : list RSSItem.t :=
  if truthy selectedCategory
  then Cache.feedsOf cache (default [] selectedCategory)
  else [].

(** [toggleSourceWithScroll], as far as [expandedSources] goes. *)
Definition toggleSourceWithScroll (sourceName : jstring) (s : state) : state :=
  setExpandedSources
    (if decide (Some sourceName ∈ expandedSources s)
     then expandedSources s ∖ {[Some sourceName]}
     else expandedSources s ∪ {[Some sourceName]}) s.

Definition toggleAllSources (s : state) : state :=
  let groups :=
    groupedFeeds (currentFeeds (selectedCategory s)
                    (feedsByCategory (rssData s))) in
  if decide (size (expandedSources s) = size (dom groups))
  then setExpandedSources ∅ s
  else setExpandedSources (set_map Some (dom groups)) s.

(** What can happen to the component. [handleSortByTime] is left out:
    it calls [setFeedsByCategory], which is not in scope in [RSSPage],
    and so throws before it changes anything. *)
Inductive event :=
| ConfigArrived (fetched : jstring + list FeedConfig.t)
| CategoryClick (categoryId : jstring)
| Refresh
| FetchSettled (category : RSSCategory.t) (feedConfig : FeedConfig.t)
               (fetched : option (list RSSItem.t))
| UrlTyped (url : jstring)
| AddCustomFeed (fetched : option (list RSSItem.t))
| ToggleSource (sourceName : jstring)
| ToggleAllSources.

(** A response is handled under the id of the category it was
    requested for. *)
Definition handle (e : event) (s : state) : state :=
  match e with
  | ConfigArrived fetched => loadCategoriesAndConfig fetched s
  | CategoryClick c => handleCategoryClick c s
  | Refresh => handleRefresh s
  | FetchSettled category feedConfig fetched =>
      fetchSettled (RSSCategory.id category) category feedConfig fetched s
  | UrlTyped url => setCustomRssUrl url s
  | AddCustomFeed fetched => handleAddCustomFeed fetched s
  | ToggleSource n => toggleSourceWithScroll n s
  | ToggleAllSources => toggleAllSources s
  end.

Inductive reachable : state → Prop :=
| reach_init : reachable init
| reach_step e s : reachable s → reachable (handle e s).

(** Responses coming in one after the other for requests sent for
    [categoryId]. *)
Definition settleAll (categoryId : jstring)
    (arrivals : list (RSSCategory.t * FeedConfig.t * option (list RSSItem.t)))
    (s : state) : state :=
  fold_left (λ s a, fetchSettled categoryId a.1.1 a.1.2 a.2 s) arrivals s.

(** What neither a refresh nor a response changes. *)
Definition untouched (s s' : state) : Prop :=
  categories (rssData s') = categories (rssData s)
  ∧ rssConfig (rssData s') = rssConfig (rssData s)
  ∧ selectedCategory s' = selectedCategory s
  ∧ customRssUrl s' = customRssUrl s
  ∧ isAddingCustomFeed s' = isAddingCustomFeed s.

End Page.

(** ** Scenes to try the components on *)

Module Scene.

Definition config : RSSConfig.t :=
  RSSConfig.mk
    [RSSFeedConfig.mk (js "Blog") (js "https://blog.example/rss")
       (js "Tech") (js "a blog")].

(** The proxy answers with one item for every feed. *)
Definition net : App.network := λ _, Some [Cache.older].

(** The configuration has come in, the category was clicked, and the
    one source was collapsed by hand. *)
Definition collapsed : App.state :=
  App.handle (App.ToggleSource (js "Blog"))
    (App.handle (App.CategoryClick net (Some (js "tech")))
       (App.handle (App.ConfigArrived (inr config)) App.init)).

Definition world : RSSCategory.t :=
  RSSCategory.mk (js "world") (js "World") (js "#10B981") 0.

Definition abroad : RSSItem.t :=
  RSSItem.mk (js "daily-3-0") (js "far away") (js "text")
    (js "https://example.org/c") (Some 3000%Z) world (js "Daily")
    (js "Daily") (js "daily").

Definition pageFeeds : list Page.FeedConfig.t :=
  [Page.FeedConfig.mk (Some (js "Blog")) (js "Blog")
     (js "https://blog.example/rss") (js "Tech")].

(** [RSSPage] with the configuration in, a feed added by hand and the
    category "tech" clicked. *)
Definition pageWithCustom : Page.state :=
  Page.handle (Page.CategoryClick (js "tech"))
    (Page.handle (Page.AddCustomFeed (Some [abroad]))
       (Page.handle (Page.UrlTyped (js "https://custom.example/rss"))
          (Page.handle (Page.ConfigArrived (inr pageFeeds)) Page.init))).

Definition blog : Page.FeedConfig.t :=
  Page.FeedConfig.mk (Some (js "Blog")) (js "Blog")
    (js "https://blog.example/rss") (js "Tech").

(** The body [{"status":"ok","items":[{"title":{"_text":42}}]}]. *)
Definition numberInText : Js.value :=
  Js.VObject
    [(js "status", Js.VString (js "ok"));
     (js "items",
      Js.VArray
        [Js.VObject
           [(js "title", Js.VObject [(js "_text", Js.VNumber 42)])]])].

(** A body in the shape of rss2json, with a second item that is a bare
    string. *)
Definition rss2json : Js.value :=
  Js.VObject
    [(js "status", Js.VString (js "ok"));
     (js "feed", Js.VObject [(js "title", Js.VString (js "The Blog"))]);
     (js "items",
      Js.VArray
        [Js.VObject
           [(js "title", Js.VString (js "Hello"));
            (js "description", Js.VString (js "<p>Hi <b>there</b></p>"));
            (js "link", Js.VString (js "https://blog.example/1"))];
         Js.VString (js "abc")])].

(** The two spellings again, for [RSSPage]. *)
Definition pageTwoSpellings : list Page.FeedConfig.t :=
  [Page.FeedConfig.mk None (js "Hacker News") (js "https://news.example/rss")
     (js "Tech News");
   Page.FeedConfig.mk None (js "Lobsters") (js "https://lobste.example/rss")
     (js "tech  news")].

End Scene.

(** ** More of [utils] *)

(** [utils.truncateText(text, maxLength)]; [text] is [None] for [null]
    and [undefined], which the function hands back. *)
Definition truncateText (text : option jstring) (maxLength : nat)
  : option jstring :=
  match text with
  | Some (c :: rest) =>
      if decide (length (c :: rest) ≤ maxLength)%nat
      then text
      else Some (take maxLength (c :: rest) ++ js "...")
  | _ => text
  end.

(** The default of [maxLength]. *)
Definition defaultMaxLength : nat := 150.

(** ** More of [RSSPage] *)

Module PageView.

(** [configLoading || loadingFeeds.size > 0] *)
Definition isLoading (s : Page.state) : bool :=
  Page.loading (Page.rssData s)
  || negb (bool_decide (size (Page.loadingFeeds (Page.loadingState s)) = 0%nat)).

(** What [fetchRSSFeed] makes of a response, as [fetchSettled] sees it:
    the items tagged with the category and the name of the feed. *)
Definition resultOf
    (arrival : RSSCategory.t * Page.FeedConfig.t * option (list RSSItem.t))
  : list RSSItem.t :=
  withCategoryAndFeedName arrival.1.1 (Page.titleOrName arrival.1.2)
  <$> default [] arrival.2.

(** A category that [loadFeedsForCategory] goes on to load: not the
    custom one, with the configuration in and an entry in [categories]. *)
Definition loadable (categoryId : jstring) (feeds : list Page.FeedConfig.t)
    (s : Page.state) : Prop :=
  categoryId ≠ js "custom"
  ∧ Page.rssConfig (Page.rssData s) = Some feeds
  ∧ is_Some (list_find (λ c, RSSCategory.id c = categoryId)
                       (Page.categories (Page.rssData s))).

End PageView.

(** ** Colours of the generated categories *)

(** [categoryColors[index % categoryColors.length]] *)
Definition colorAt (index : nat) : jstring :=
  default [] (categoryColors !! (index mod length categoryColors)%nat).

(** What the loop of [loadCategoriesAndConfig] of [RSSPage] keeps true
    once it has gone through the feed configs [seen]: the index is their
    number, every category name met has an entry, and the colour of an
    entry is the one at the position of the first feed config that has
    its name. *)
Definition colored (seen : list Page.FeedConfig.t)
    (acc : list (jstring * RSSCategory.t) * nat) : Prop :=
  acc.2 = length seen
  ∧ (∀ f, f ∈ seen → Page.FeedConfig.category f ∈ acc.1.*1)
  ∧ ∀ k c, (k, c) ∈ acc.1 →
      RSSCategory.name c = k
      ∧ ∃ j f, list_find (λ f, Page.FeedConfig.category f = k) seen = Some (j, f)
               ∧ RSSCategory.color c = colorAt j
               ∧ RSSCategory.count c = 0%nat.

(** ** The older component: one load of everything *)

Module OldApp.

Record state := mkState {
  feeds : list RSSItem.t;
  categories : list RSSCategory.t;
  selectedCategory : option jstring;
  loading : bool;
  error : option jstring;
  expandedSources : gset jstring
}.

Definition init : state := mkState [] [] None false None ∅.

(** The entries of [categoryMap] after [config.feeds.forEach], in
    insertion order. *)
Definition categoryMapOf (config : RSSConfig.t)
  : list (jstring * RSSCategory.t) :=
  (fold_left categoryStep (RSSConfig.feeds config) ([], 0%nat)).1.

(** [categoryMap.get(name)], [None] for [undefined]. *)
Definition mapGet (name : jstring) (categoryMap : list (jstring * RSSCategory.t))
  : option RSSCategory.t :=
  (λ found, found.2.2) <$> list_find (λ entry, entry.1 = name) categoryMap.

(** [{...category, count: allFeeds.filter(feed => feed.category.id ===
    category.id).length}] *)
Definition withCount (allFeeds : list RSSItem.t) (category : RSSCategory.t)
  : RSSCategory.t :=
  RSSCategory.mk (RSSCategory.id category) (RSSCategory.name category)
    (RSSCategory.color category)
    (length (filter (λ feed, RSSCategory.id (RSSItem.category feed)
                             = RSSCategory.id category) allFeeds)).

(** [loadRSSFeeds], with every [await] resolved at once; [fetched] is
    the parsed configuration or the message of the error thrown on the
    way to it, [net] what the proxy answers. [fetchRSSFeed] is the one of
    src/App.tsx. The result is [None] for a run in which
    [categoryMap.get(feedConfig.category)!] gives [undefined], so that
    items would be built without a category. *)
Definition loadRSSFeeds (fetched : jstring + RSSConfig.t) (net : App.network)
    (s : state) : option state :=
  match fetched with
  | inl message =>
      Some (mkState (feeds s) (categories s) (selectedCategory s) false
              (Some message) (expandedSources s))
  | inr config =>
      let categoryMap := categoryMapOf config in
      results ←
        mapM (λ feedConfig,
                category ← mapGet (RSSFeedConfig.category feedConfig) categoryMap;
                Some (App.fetchRSSFeed net feedConfig category))
             (RSSConfig.feeds config);
      let allFeeds := sortByTime (concat (default [] <$> results)) in
      Some (mkState allFeeds (withCount allFeeds <$> categoryMap.*2)
              (selectedCategory s) false None
              (list_to_set (RSSItem.feedName <$> allFeeds)))
  end.

(** [handleRefresh] loads everything again. *)
Definition handleRefresh := loadRSSFeeds.

Definition toggleAllSources (s : state) : state :=
  let groups :=
    groupedFeeds (Legacy.filteredFeeds (selectedCategory s) (feeds s)) in
  mkState (feeds s) (categories s) (selectedCategory s) (loading s) (error s)
    (if decide (size (expandedSources s) = size (dom groups))
     then ∅ else dom groups).

End OldApp.

(** ** What holds of every state the components can reach *)

(** Every cached list has each item at least as new as the next. *)
Definition inOrder (cache : gmap jstring (list RSSItem.t)) : Prop :=
  ∀ k l, cache !! k = Some l → Sorted newerFirst l.

(** The categories are the ones generated from the configuration held,
    and there are none while no configuration is held. *)
Definition configured {Config} (build : Config → list RSSCategory.t)
    (rssConfig : option Config) (categories : list RSSCategory.t) : Prop :=
  match rssConfig with
  | Some config => categories = build config
  | None => categories = []
  end.

(** ** The variant of [RSSPage] that selects the first category *)

Module AutoSelect.

(** [loadFeedsForCategory] of the variant, which has no 'custom'
    category. *)
Definition loadFeedsForCategory (categoryId : jstring) (s : Page.state)
  : Page.state :=
  match Page.rssConfig (Page.rssData s) with
  | None => s
  | Some feeds =>
      let s1 :=
        Page.resetLoadingState
          (Page.clearCategoryFeeds categoryId (Page.setError None s)) in
      match list_find (λ c, RSSCategory.id c = categoryId)
                      (Page.categories (Page.rssData s)) with
      | None => Page.setError (Some Page.noSuchCategory) s1
      | Some _ =>
          let feedConfigs := Page.feedConfigsOf feeds categoryId in
          fold_left Page.perform (Page.batchLoop feedConfigs 0) s1
      end
  end.

(** The effect on [categories] and [selectedCategory]. *)
Definition selectFirst (s : Page.state) : Page.state :=
  match Page.categories (Page.rssData s), Page.selectedCategory s with
  | firstCategory :: _, None =>
      loadFeedsForCategory (RSSCategory.id firstCategory)
        (Page.setSelectedCategory (Some (RSSCategory.id firstCategory)) s)
  | _, _ => s
  end.

End AutoSelect.

(** * Properties *)

(** ** The loop of [addFeedsToCategory] *)

Section cache_facts.
Import Cache.
Implicit Types (s : gmap jstring (list RSSItem.t)) (l : list RSSItem.t).

Lemma uniqueFeeds_links_fresh seen l x :
  x ∈ uniqueFeeds seen l → (RSSItem.link x ∉ seen) ∧ x ∈ l.
Proof.
  revert seen. induction l as [|y l IH]; intros seen; simpl.
  - by intros ?%elem_of_nil.
  - case_decide as Hy.
    + intros [? ?]%IH. split; [done | by right].
    + intros [->|Hx]%elem_of_cons.
      * split; [done | by left].
      * apply IH in Hx as [Hx ?]. split; [set_solver | by right].
Qed.

Lemma uniqueFeeds_NoDup seen l :
  NoDup (RSSItem.link <$> uniqueFeeds seen l).
Proof.
  revert seen. induction l as [|y l IH]; intros seen; simpl.
  - constructor.
  - case_decide as Hy; [apply IH |].
    rewrite fmap_cons. constructor; [| apply IH].
    intros (z & Hz & Hin)%list_elem_of_fmap.
    apply uniqueFeeds_links_fresh in Hin as [Hin _]. set_solver.
Qed.

Lemma run_deduplicated o s : deduplicated s → deduplicated (run o s).
Proof.
  intros Hs k l. destruct o as [c fs|c|]; simpl.
  - unfold addFeedsToCategory. rewrite lookup_insert. case_decide.
    + intros [= <-]. apply uniqueFeeds_NoDup.
    + apply Hs.
  - unfold clearCategoryFeeds. rewrite lookup_insert. case_decide.
    + intros [= <-]. constructor.
    + apply Hs.
  - unfold clearAllFeeds. by rewrite lookup_empty.
Qed.

End cache_facts.

Section cache_merge.
Import Cache.
Implicit Types (s : gmap jstring (list RSSItem.t)) (l : list RSSItem.t).

Lemma uniqueFeeds_app seen l1 l2 :
  uniqueFeeds seen (l1 ++ l2) =
  uniqueFeeds seen l1 ++
  uniqueFeeds (list_to_set (RSSItem.link <$> l1) ∪ seen) l2.
Proof.
  revert seen. induction l1 as [|y l1 IH]; intros seen; simpl.
  - by rewrite (left_id_L ∅ (∪)).
  - case_decide as Hy.
    + rewrite IH. do 2 f_equal. set_solver.
    + simpl. rewrite IH. do 3 f_equal. set_solver.
Qed.

Lemma uniqueFeeds_id seen l :
  NoDup (RSSItem.link <$> l) →
  (∀ x, x ∈ l → RSSItem.link x ∉ seen) →
  uniqueFeeds seen l = l.
Proof.
  revert seen. induction l as [|y l IH]; intros seen Hnd Hfresh; [done|].
  simpl. rewrite fmap_cons in Hnd. apply NoDup_cons in Hnd as [Hy Hnd].
  rewrite decide_False; [| apply Hfresh; by left].
  f_equal. apply IH; [done|].
  intros x Hx [Heq%elem_of_singleton | Hin]%elem_of_union.
  - apply Hy. rewrite <- Heq. by apply list_elem_of_fmap_2.
  - apply (Hfresh x); [by right | done].
Qed.

Lemma feedsOf_addFeedsToCategory s c fs :
  feedsOf (addFeedsToCategory c fs s) c = uniqueFeeds ∅ (feedsOf s c ++ fs).
Proof. unfold addFeedsToCategory, feedsOf at 1. by rewrite lookup_insert_eq. Qed.

Lemma same_link_unique l x z :
  NoDup (RSSItem.link <$> l) → x ∈ l → z ∈ l →
  RSSItem.link z = RSSItem.link x → z = x.
Proof.
  induction l as [|y l IH]; [by intros _ ?%elem_of_nil|].
  rewrite fmap_cons. intros [Hy Hnd]%NoDup_cons.
  intros [->|Hx]%elem_of_cons [->|Hz]%elem_of_cons Hl; auto.
  - destruct Hy. rewrite <- Hl. by apply list_elem_of_fmap_2.
  - destruct Hy. rewrite Hl. by apply list_elem_of_fmap_2.
Qed.

End cache_merge.

(** ** Lists *)

Lemma filter_agree {A} (P1 P2 : A → Prop)
    `{!∀ x, Decision (P1 x), !∀ x, Decision (P2 x)} (l : list A) :
  (∀ x, x ∈ l → P1 x ↔ P2 x) → filter P1 l = filter P2 l.
Proof.
  induction l as [|a l IH]; intros Hiff; [done|].
  rewrite !filter_cons.
  assert (Ha : P1 a ↔ P2 a) by (apply Hiff; by left).
  rewrite IH by (intros x Hx; apply Hiff; by right).
  destruct (decide (P1 a)), (decide (P2 a)); tauto.
Qed.


(** ** What the loop of [loadFeedsForCategory] does to the cache *)

Section page_cache_ops.
Import Page.

Lemma perform_cache s a :
  feedsByCategory (rssData (perform s a)) = feedsByCategory (rssData s).
Proof.
  destruct a as [batch|ms]; [|done]. simpl.
  revert s. induction batch as [|fc batch IH]; intros s; [done|].
  simpl. by rewrite IH.
Qed.

Lemma fold_perform_cache actions s :
  feedsByCategory (rssData (fold_left perform actions s))
  = feedsByCategory (rssData s).
Proof.
  revert s. induction actions as [|a actions IH]; intros s; [done|].
  simpl. by rewrite IH, perform_cache.
Qed.

(** What [loadFeedsForCategory] leaves in the cache. *)
Lemma loadFeedsForCategory_cache c s :
  feedsByCategory (rssData (loadFeedsForCategory c s))
  = feedsByCategory (rssData s)
  ∨ feedsByCategory (rssData (loadFeedsForCategory c s))
    = <[c := []]> (feedsByCategory (rssData s)).
Proof.
  unfold loadFeedsForCategory. case_decide; [by left|].
  destruct (rssConfig (rssData s)); [|by left].
  destruct (list_find _ _); [|by right].
  right. by rewrite fold_perform_cache.
Qed.

End page_cache_ops.

(** ** C1: the cache never holds two feeds with one link in a category *)

Section page_cache.
Import Page.

(** [RSSPage] changes the cache through the three operations of the hook
    only. *)
Lemma page_handle_cache_reachable e s :
  Cache.reachable (feedsByCategory (rssData s)) →
  Cache.reachable (feedsByCategory (rssData (handle e s))).
Proof.
  intros Hs.
  assert (Hload : ∀ c s0, Cache.reachable (feedsByCategory (rssData s0)) →
            Cache.reachable (feedsByCategory (rssData (loadFeedsForCategory c s0)))).
  { intros c s0 Hs0. destruct (loadFeedsForCategory_cache c s0) as [-> | ->];
      [done|]. apply (Cache.reach_step (Cache.ClearCategoryFeeds c)), Hs0. }
  assert (Hclear : ∀ s0, Cache.reachable (feedsByCategory (rssData s0)) →
            Cache.reachable (feedsByCategory (rssData (clearAllFeeds s0)))).
  { intros s0 Hs0. apply (Cache.reach_step Cache.ClearAllFeeds), Hs0. }
  destruct e as [fetched|c| |category fc fetched|url|fetched|n|]; simpl.
  - by destruct fetched.
  - unfold handleCategoryClick.
    case_decide; destruct (Cache.feedsOf _ c); try done. by apply Hload.
  - unfold handleRefresh. destruct (selectedCategory s) as [[|u c]|].
    + by apply (Hclear s).
    + apply Hload. by apply (Hclear s).
    + by apply (Hclear s).
  - unfold fetchSettled.
    destruct (withCategoryAndFeedName _ _ <$> default [] fetched)
      as [|x result]; [done|]. simpl.
    apply (Cache.reach_step (Cache.AddFeedsToCategory _ _)), Hs.
  - done.
  - unfold handleAddCustomFeed.
    destruct (JsString.trim (customRssUrl s)); [done|].
    destruct (withCategoryAndFeedName _ _ <$> default [] fetched)
      as [|x result]; [done|]. simpl.
    apply (Cache.reach_step (Cache.AddFeedsToCategory _ _)), Hs.
  - done.
  - unfold toggleAllSources. by case_decide.
Qed.

Lemma page_cache_reachable s :
  reachable s → Cache.reachable (feedsByCategory (rssData s)).
Proof.
  induction 1 as [|e s _ IH]; [apply Cache.reach_init|].
  by apply page_handle_cache_reachable.
Qed.

End page_cache.

(** C1. The empty cache holds no two feeds with one link in a category;
    each of [addFeedsToCategory], [clearCategoryFeeds] and [clearAllFeeds]
    keeps it so; hence after any sequence of them from the empty cache the
    list stored under every category key has pairwise distinct links, and
    so it is in every state [RSSPage] can reach. *)
Theorem cache_deduplicated :
  Cache.deduplicated ∅
  ∧ (∀ o s, Cache.deduplicated s → Cache.deduplicated (Cache.run o s))
  ∧ (∀ s, Cache.reachable s → Cache.deduplicated s)
  ∧ (∀ s, Page.reachable s →
          Cache.deduplicated (Page.feedsByCategory (Page.rssData s))).
Proof.
  assert (Hempty : Cache.deduplicated ∅).
  { intros k l. by rewrite lookup_empty. }
  assert (Hreach : ∀ s, Cache.reachable s → Cache.deduplicated s).
  { induction 1 as [|o s _ IH]; [done|]. by apply run_deduplicated. }
  split; [done|]. split; [apply run_deduplicated|]. split; [done|].
  intros s Hs. by apply Hreach, page_cache_reachable.
Qed.

Lemma cache_deduplicated_witness :
  Cache.deduplicated
    (Cache.run (Cache.AddFeedsToCategory (js "tech") [Cache.newer; Cache.other])
       (Cache.run (Cache.AddFeedsToCategory (js "tech") [Cache.older]) ∅)).
Proof.
  destruct cache_deduplicated as (_ & _ & Hreach & _).
  apply Hreach. apply Cache.reach_step, Cache.reach_step.
  apply Cache.reach_init.
Defined.

(** ** C2: what happens to a link that arrives twice *)

(** With two responses for one link, the item of the earlier response is
    the one that stays. *)
Lemma later_response_does_not_overwrite :
  ¬ Cache.later_response_overwrites ∅ (js "tech") [Cache.older] [Cache.newer].
Proof.
  intros H.
  destruct (H Cache.older Cache.newer) as [Hin _].
  - vm_compute. by left.
  - by left.
  - reflexivity.
  - vm_compute in Hin.
    apply list_elem_of_singleton in Hin. discriminate Hin.
Qed.

(** C2 (amended). When two batches are merged in succession into one
    category, the list stored after the first merge is kept as it is and
    only the items of the later batch whose link is new are appended; so
    for an item of the later batch that has the link of a stored item, the
    stored item stays and is the only stored item with that link, and the
    later item is not stored unless it is that very item. *)
Theorem earlier_response_kept (s : gmap jstring (list RSSItem.t))
    (categoryId : jstring) (batch1 batch2 : list RSSItem.t)
    (x y : RSSItem.t) :
  let s1 := Cache.addFeedsToCategory categoryId batch1 s in
  let s2 := Cache.addFeedsToCategory categoryId batch2 s1 in
  x ∈ Cache.feedsOf s1 categoryId →
  y ∈ batch2 →
  RSSItem.link y = RSSItem.link x →
  Cache.feedsOf s2 categoryId =
    Cache.feedsOf s1 categoryId ++
    Cache.uniqueFeeds
      (list_to_set (RSSItem.link <$> Cache.feedsOf s1 categoryId)) batch2
  ∧ x ∈ Cache.feedsOf s2 categoryId
  ∧ (∀ z, z ∈ Cache.feedsOf s2 categoryId →
          RSSItem.link z = RSSItem.link x → z = x)
  ∧ (y ≠ x → y ∉ Cache.feedsOf s2 categoryId).
Proof.
  intros s1 s2 Hx Hy Hl.
  assert (Hnd1 : NoDup (RSSItem.link <$> Cache.feedsOf s1 categoryId)).
  { unfold s1. rewrite feedsOf_addFeedsToCategory. apply uniqueFeeds_NoDup. }
  assert (Heq : Cache.feedsOf s2 categoryId =
    Cache.feedsOf s1 categoryId ++
    Cache.uniqueFeeds
      (list_to_set (RSSItem.link <$> Cache.feedsOf s1 categoryId)) batch2).
  { unfold s2. rewrite feedsOf_addFeedsToCategory, uniqueFeeds_app.
    rewrite (right_id_L ∅ (∪)). f_equal.
    apply uniqueFeeds_id; [done|]. intros ? _. apply not_elem_of_empty. }
  assert (Honly : ∀ z, z ∈ Cache.feedsOf s2 categoryId →
                       RSSItem.link z = RSSItem.link x → z = x).
  { intros z Hz Hzl. eapply same_link_unique; [| | done | done].
    - unfold s2. rewrite feedsOf_addFeedsToCategory. apply uniqueFeeds_NoDup.
    - rewrite Heq. apply elem_of_app. by left. }
  split; [done|]. split; [|split; [done|]].
  - rewrite Heq. apply elem_of_app. by left.
  - intros Hne Hin. apply Hne. by apply Honly.
Qed.

Lemma earlier_response_kept_witness :
  Cache.feedsOf
    (Cache.addFeedsToCategory (js "tech") [Cache.newer; Cache.other]
       (Cache.addFeedsToCategory (js "tech") [Cache.older] ∅)) (js "tech")
  = [Cache.older; Cache.other].
Proof.
  destruct (earlier_response_kept ∅ (js "tech") [Cache.older]
              [Cache.newer; Cache.other] Cache.older Cache.newer)
    as (Heq & _ & _ & _).
  - vm_compute. by left.
  - by left.
  - reflexivity.
  - rewrite Heq. vm_compute. reflexivity.
Defined.

(** ** C3: grouping by source *)

Section grouping.
Implicit Types (acc : gmap jstring (list RSSItem.t)) (l : list RSSItem.t).







End grouping.



(** ** C4: what [fetchRSSFeed] returns *)

Section fetch.
Import Js Page.

Lemma bind_Ret {A B} (m : exn A) (k : A → exn B) b :
  (m ≫= k) = Ret b → ∃ a, m = Ret a ∧ k a = Ret b.
Proof. destruct m as [a|]; [|done]. intros ?. by exists a. Qed.

Lemma or_truthy a b v :
  or a b = Ret v → (∀ w, b = Ret w → toBoolean w = true) →
  toBoolean v = true.
Proof.
  unfold or. destruct (toBoolean a) eqn:Ha.
  - by intros [= <-].
  - intros Hb Hw. by apply Hw.
Qed.

Lemma textOf_truthy x fallback v :
  textOf x fallback = Ret v → toBoolean x = true →
  (∀ w, fallback = Ret w → toBoolean w = true) →
  toBoolean v = true.
Proof.
  unfold textOf. destruct (isString x).
  - by intros [= <-].
  - intros (text & _ & Hor)%bind_Ret _ Hfb.
    apply (or_truthy _ _ _ Hor). intros w (cdata & _ & Hor')%bind_Ret.
    by apply (or_truthy _ _ _ Hor').
Qed.

Lemma truthy_string_nonempty v :
  toBoolean v = true → isString v = true → ∃ c s, v = VString (c :: s).
Proof. destruct v as [| | | |[|c s]| | |]; try done. by exists c, s. Qed.

(** What every item made by the callback of [items.map] has. *)
Lemma normalizeItem_fields now fc category feedTitle index item it :
  normalizeItem now fc category feedTitle index item = Ret it →
  toBoolean (Item.title it) = true
  ∧ toBoolean (Item.link it) = true
  ∧ Item.category it = category
  ∧ Item.feedName it = titleOrName fc
  ∧ Item.id it = (titleOrName fc, now, index).
Proof.
  unfold normalizeItem.
  intros (title & Htitle & H)%bind_Ret.
  apply bind_Ret in H as (description & _ & H).
  apply bind_Ret in H as (link & Hlink & H).
  apply bind_Ret in H as (pubDate & _ & H).
  apply bind_Ret in H as (author & _ & H).
  apply bind_Ret in H as (title' & Htitle' & H).
  apply bind_Ret in H as (descriptionText & _ & H).
  apply bind_Ret in H as (description' & _ & H).
  apply bind_Ret in H as (link' & Hlink' & H).
  apply bind_Ret in H as (source & _ & H).
  apply bind_Ret in H as (author' & _ & H).
  injection H as <-. simpl. repeat split.
  - apply (textOf_truthy _ _ _ Htitle'); [|by intros w [= <-]].
    apply bind_Ret in Htitle as (t & _ & Hor).
    apply (or_truthy _ _ _ Hor). intros w (n & _ & Hor')%bind_Ret.
    apply (or_truthy _ _ _ Hor'). by intros ? [= <-].
  - apply (textOf_truthy _ _ _ Hlink'); [|by intros w [= <-]].
    apply bind_Ret in Hlink as (t & _ & Hor).
    apply (or_truthy _ _ _ Hor). intros w (n & _ & Hor')%bind_Ret.
    apply (or_truthy _ _ _ Hor'). by intros ? [= <-].
Qed.

Lemma mapItems_elem f index items result it :
  mapItems f index items = Ret result → it ∈ result →
  ∃ i item, f i item = Ret it.
Proof.
  revert index result. induction items as [|item items IH];
    intros index result; simpl.
  - intros [= <-] ?%elem_of_nil. done.
  - intros (r & Hr & H)%bind_Ret.
    apply bind_Ret in H as (rs & Hrs & [= <-]).
    intros [->|Hin]%elem_of_cons; [by exists index, item|].
    by eapply IH.
Qed.

Lemma mapItems_length f index items result :
  mapItems f index items = Ret result → length result = length items.
Proof.
  revert index result. induction items as [|item items IH];
    intros index result; simpl.
  - by intros [= <-].
  - intros (r & Hr & H)%bind_Ret.
    apply bind_Ret in H as (rs & Hrs & [= <-]).
    simpl. f_equal. by eapply IH.
Qed.

(** The part of C4 that holds whatever the response: the function is
    total, so it returns and does not throw; a failed request gives
    [null]; a result that is not [null] is not empty, and each of its
    items has a truthy [title] (so not empty where it is a string) and
    a truthy [link], a [description] that is a string, the category
    handed in, and the feed's name. *)
Lemma fetchRSSFeed_normalizes now response fc category :
  fetchRSSFeed now None fc category = None
  ∧ ∀ result, fetchRSSFeed now response fc category = Some result →
      result ≠ []
      ∧ ∀ it, it ∈ result →
          toBoolean (Item.title it) = true
          ∧ (isString (Item.title it) = true →
             ∃ c s, Item.title it = VString (c :: s))
          ∧ toBoolean (Item.link it) = true
          ∧ Item.category it = category
          ∧ Item.feedName it = titleOrName fc.
Proof.
  split; [done|]. intros result. unfold fetchRSSFeed, fetchBody.
  destruct response as [data|]; [|done].
  destruct (findItems data) as [[items feedTitle]|]; [|done].
  cbn -[mapItems normalizeItem].
  destruct items as [| | | | |[|item rest]| |]; try done.
  destruct (mapItems (normalizeItem now fc category feedTitle) 0 (item :: rest))
    as [r|] eqn:Hmap; [|done].
  cbn -[mapItems normalizeItem]. intros [= <-]. split.
  - apply mapItems_length in Hmap. by destruct r.
  - intros it Hin.
    destruct (mapItems_elem _ _ _ _ _ Hmap Hin) as (i & raw & Hit).
    apply normalizeItem_fields in Hit as (? & ? & ? & ? & ?).
    repeat split; try done. by apply truthy_string_nonempty.
Qed.

(** A response in none of the five shapes, and one with an empty list
    of items, give [null]. *)
Lemma fetchRSSFeed_no_items now data fc category feedTitle :
  findItems data = Ret (VArray [], feedTitle) →
  fetchRSSFeed now (Some data) fc category = None.
Proof. intros H. unfold fetchRSSFeed, fetchBody. by rewrite H. Qed.

(** A response in the shape of rss2json: the title and the link of the
    first item are taken over, its description loses its tags; the second
    item, a bare string, gets the defaults. *)
Example fetchRSSFeed_rss2json :
  fetchRSSFeed 1700 (Some Scene.rss2json) Scene.blog Cache.tech
  = Some
      [Item.mk (js "Blog", 1700%Z, 0%nat) (VString (js "Hello")) (js "Hi there")
         (VString (js "https://blog.example/1")) (VNumber 1700) Cache.tech
         (VString (js "The Blog")) (VString (js "The Blog")) (js "Blog");
       Item.mk (js "Blog", 1700%Z, 1%nat) (VString untitled) noDescription
         (VString (js "#")) (VNumber 1700) Cache.tech
         (VString (js "The Blog")) (VString (js "The Blog")) (js "Blog")].
Proof. vm_compute. reflexivity. Qed.

End fetch.

(** C4, at the response [{"status":"ok","items":[{"title":{"_text":42}}]}]:
    [fetchRSSFeed] returns one item, and its [title] is the number [42],
    not a string. *)
Theorem fetchRSSFeed_title_not_a_string :
  ∃ it,
    Page.fetchRSSFeed 1700 (Some Scene.numberInText) Scene.blog Cache.tech
    = Some [it]
    ∧ Page.Item.title it = Js.VNumber 42
    ∧ Js.isString (Page.Item.title it) = false.
Proof. eexists. vm_compute. repeat split. Qed.

(** ** C5: batches of three with a pause between them *)

Section batches.
Import Page.
Implicit Types (feedConfigs : list FeedConfig.t)
               (batches : list (list FeedConfig.t)).

Lemma batches_full_nonempty batches :
  batches_full batches → concat batches = [] → batches = [].
Proof.
  destruct batches as [|b batches]; [done|]. intros Hfull Hnil.
  destruct (Hfull 0%nat b) as [Hlen _]; [done|].
  simpl in Hnil. apply app_eq_nil in Hnil as [-> _]. simpl in Hlen. lia.
Qed.

Lemma batchLoop_from feedConfigs i :
  ∃ batches,
    batchLoop feedConfigs i = pausedBetween batches
    ∧ concat batches = drop i feedConfigs
    ∧ batches_full batches.
Proof.
  funelim (batchLoop feedConfigs i).
  - destruct H as (rest & Hloop & Hconcat & Hfull).
    set (b := slice i (i + BATCH_SIZE) feedConfigs).
    assert (Hb : b = take BATCH_SIZE (drop i feedConfigs)).
    { unfold b, slice. f_equal. lia. }
    assert (Hblen : length b = (BATCH_SIZE `min` (length feedConfigs - i))%nat).
    { by rewrite Hb, length_take, length_drop. }
    exists (b :: rest). split; [|split].
    + simpl. f_equal. rewrite Hloop. case_decide as Hmore.
      * destruct rest as [|b' rest]; [|done].
        simpl in Hconcat. symmetry in Hconcat.
        apply (f_equal length) in Hconcat. rewrite length_drop in Hconcat.
        simpl in Hconcat. lia.
      * assert (rest = []) as ->; [|done].
        apply batches_full_nonempty; [done|]. rewrite Hconcat.
        apply drop_ge. lia.
    + simpl. rewrite Hconcat, Hb.
      rewrite <- (drop_drop feedConfigs BATCH_SIZE i).
      apply take_drop.
    + intros k c Hk. destruct k as [|k]; simpl in Hk.
      * injection Hk as <-. unfold BATCH_SIZE in *. split; [lia|].
        simpl. intros Hlen.
        destruct (decide (i + 3 < length feedConfigs)%nat); [lia|].
        assert (rest = []) as ->; [|simpl in Hlen; lia].
        apply batches_full_nonempty; [done|]. rewrite Hconcat.
        apply drop_ge. lia.
      * destruct (Hfull k c Hk) as [? Hlast]. split; [done|].
        simpl. intros ?. apply Hlast. lia.
  - exists []. split; [done|]. split.
    + simpl. symmetry. apply drop_ge. lia.
    + intros k b Hk. by rewrite lookup_nil in Hk.
Qed.

End batches.

(** C5. The loop of [loadFeedsForCategory] launches the feed configs in
    consecutive batches of [BATCH_SIZE = 3], only the last of which may
    be smaller; the batches put together give the list of feed configs in
    order; and the loop waits [BATCH_DELAY] between two batches and not
    behind the last. *)
Theorem batches_of_three (feedConfigs : list Page.FeedConfig.t) :
  Page.BATCH_SIZE = 3%nat
  ∧ ∃ batches,
      Page.batchLoop feedConfigs 0 = Page.pausedBetween batches
      ∧ concat batches = feedConfigs
      ∧ ∀ k b, batches !! k = Some b →
               (1 ≤ length b ≤ Page.BATCH_SIZE)%nat
               ∧ (S k < length batches → length b = Page.BATCH_SIZE)%nat.
Proof.
  split; [done|].
  destruct (batchLoop_from feedConfigs 0) as (batches & ? & ? & ?).
  by exists batches.
Qed.

Lemma batches_of_three_witness :
  Page.batchLoop Page.sevenFeeds 0
  = [Page.LaunchBatch (take 3 Page.sevenFeeds); Page.Wait 100;
     Page.LaunchBatch (take 3 (drop 3 Page.sevenFeeds)); Page.Wait 100;
     Page.LaunchBatch (drop 6 Page.sevenFeeds)].
Proof.
  destruct (batches_of_three Page.sevenFeeds) as (_ & batches & -> & Hcat & Hfull).
  pose proof (f_equal length Hcat) as Hlen.
  destruct batches as [|b1 [|b2 [|b3 [|b4 rest]]]]; simpl in Hlen;
    repeat rewrite length_app in Hlen; simpl in Hlen.
  - lia.
  - destruct (Hfull 0%nat _ eq_refl) as [Ha _].
    unfold Page.BATCH_SIZE in *. lia.
  - destruct (Hfull 0%nat _ eq_refl) as [Ha _].
    destruct (Hfull 1%nat _ eq_refl) as [Hb _].
    unfold Page.BATCH_SIZE in *. lia.
  - destruct (Hfull 0%nat _ eq_refl) as [_ Ha].
    destruct (Hfull 1%nat _ eq_refl) as [_ Hb].
    simpl in Ha, Hb. unfold Page.BATCH_SIZE in *.
    specialize (Ha ltac:(lia)). specialize (Hb ltac:(lia)).
    destruct b1 as [|? [|? [|? [|? ?]]]]; try done.
    destruct b2 as [|? [|? [|? [|? ?]]]]; try done.
    destruct b3 as [|? [|? ?]]; simpl in Hlen; try lia.
    simpl in Hcat. injection Hcat as -> -> -> -> -> -> ->. reflexivity.
  - destruct (Hfull 0%nat _ eq_refl) as [_ Ha].
    destruct (Hfull 1%nat _ eq_refl) as [_ Hb].
    destruct (Hfull 2%nat _ eq_refl) as [_ Hc].
    destruct (Hfull 3%nat _ eq_refl) as [Hd _].
    simpl in Ha, Hb, Hc. unfold Page.BATCH_SIZE in *.
    specialize (Ha ltac:(lia)). specialize (Hb ltac:(lia)).
    specialize (Hc ltac:(lia)). lia.
Defined.

(** ** C6: filtering by category *)

Section filed.
Implicit Types (cache : gmap jstring (list RSSItem.t)).








End filed.

Section app_invariant.
Import App.




End app_invariant.

Section page_invariant.
Import Page.




End page_invariant.



(** ** C7: stripping tags *)

Section strip.
Import JsString.
Implicit Types (s : jstring).

Lemma skipTag_None s : skipTag s = None → gt_sign ∉ s.
Proof.
  induction s as [|c s IH]; simpl; [intros _; apply not_elem_of_nil|].
  case_bool_decide as Hc; [done|].
  intros Hs [Heq|Hin]%elem_of_cons; [by symmetry in Heq | by apply IH].
Qed.

Lemma skipTag_Some_elem s behind x :
  skipTag s = Some behind → x ∈ behind → x ∈ s.
Proof.
  revert behind. induction s as [|d s IH]; intros behind; simpl; [done|].
  case_bool_decide.
  - intros [= ->] ?. by right.
  - intros ? ?. right. eauto.
Qed.

Lemma matchTag_Some_elem s behind x :
  matchTag s = Some behind → x ∈ behind → x ∈ s.
Proof.
  destruct s as [|c s]; simpl; [done|]. case_bool_decide; [|done].
  intros ? ?. right. by eapply skipTag_Some_elem.
Qed.

Lemma matchTag_None c s :
  matchTag (c :: s) = None → c ≠ lt_sign ∨ gt_sign ∉ s.
Proof.
  simpl. case_bool_decide; [|by left]. intros ?%skipTag_None. by right.
Qed.

Lemma stripTags_elem s x : x ∈ stripTags s → x ∈ s.
Proof.
  revert x. funelim (stripTags s); intros x; simp stripTags.
  - intros Hin. eapply matchTag_Some_elem; eauto.
  - intros [->|Hin]%elem_of_cons; [by left | right; auto].
Qed.

Lemma no_tag_cons c s :
  (c ≠ lt_sign ∨ gt_sign ∉ s) → ¬ hasCompleteTag s → ¬ hasCompleteTag (c :: s).
Proof.
  intros Hc Hs (i & j & Hij & Hi & Hj).
  destruct i as [|i]; simpl in Hi.
  - destruct Hc as [Hc|Hc]; [congruence|].
    destruct j as [|j]; [lia|]. simpl in Hj.
    apply Hc. by eapply list_elem_of_lookup_2.
  - destruct j as [|j]; [lia|]. simpl in Hj.
    apply Hs. exists i, j. split; [lia | done].
Qed.

Lemma stripTags_no_tag s : ¬ hasCompleteTag (stripTags s).
Proof.
  funelim (stripTags s); simp stripTags.
  - intros (i & j & _ & Hi & _). by rewrite lookup_nil in Hi.
  - apply no_tag_cons; [|done].
    destruct (matchTag_None _ _ e) as [?|Hgt]; [by left|].
    right. by intros Hin%stripTags_elem.
Qed.

Lemma dropWs_suffix s : ∃ a, s = a ++ dropWs s.
Proof.
  induction s as [|c s [a IH]]; simpl.
  - by exists [].
  - destruct (is_ws c).
    + exists (c :: a). simpl. by f_equal.
    + by exists [].
Qed.

Lemma trim_infix s : ∃ a b, s = a ++ trim s ++ b.
Proof.
  unfold trim.
  destruct (dropWs_suffix s) as [a Ha].
  destruct (dropWs_suffix (reverse (dropWs s))) as [b Hb].
  exists a, (reverse b). rewrite Ha at 1. f_equal.
  rewrite <- reverse_app, <- Hb. by rewrite reverse_involutive.
Qed.

Lemma no_tag_infix a s b :
  ¬ hasCompleteTag (a ++ s ++ b) → ¬ hasCompleteTag s.
Proof.
  intros H (i & j & Hij & Hi & Hj). apply H.
  exists (length a + i)%nat, (length a + j)%nat. split; [lia|].
  split.
  - rewrite lookup_app_r by lia.
    replace (length a + i - length a)%nat with i by lia.
    by apply lookup_app_l_Some.
  - rewrite lookup_app_r by lia.
    replace (length a + j - length a)%nat with j by lia.
    by apply lookup_app_l_Some.
Qed.

End strip.

(** C7. The output of [stripHtml] holds no complete tag: no ['<'] of the
    output has a ['>'] at a later position; neither does the output of
    the bare [replace] used when a description is rendered; and
    [stripHtml] of [null] and of the empty string is the empty string. *)
Theorem stripHtml_no_complete_tag (html : option jstring) :
  ¬ hasCompleteTag (stripHtml html)
  ∧ ¬ hasCompleteTag (JsString.stripTags (default [] html))
  ∧ stripHtml None = []
  ∧ stripHtml (Some []) = [].
Proof.
  split; [| split; [apply stripTags_no_tag | done]].
  unfold stripHtml. destruct (truthy html).
  - destruct (trim_infix (JsString.stripTags (default [] html))) as (a & b & Hab).
    apply (no_tag_infix a _ b). rewrite <- Hab. apply stripTags_no_tag.
  - intros (i & j & _ & Hi & _). by rewrite lookup_nil in Hi.
Qed.

Lemma stripHtml_no_complete_tag_witness :
  stripHtml (Some (js "  <p>2 < 3 and <b>4 > 1</b></p> ")) = js "2 4 > 1"
  ∧ ¬ hasCompleteTag (stripHtml (Some (js "  <p>2 < 3 and <b>4 > 1</b></p> "))).
Proof.
  split; [by vm_compute|].
  apply (stripHtml_no_complete_tag (Some (js "  <p>2 < 3 and <b>4 > 1</b></p> "))).
Defined.

(** ** C8: the ids of the generated categories *)

(** The loop of [loadCategoriesAndConfig] is the same in both components
    up to the colour it picks; the facts about it are proved once, for
    any step that leaves [categoryMap] alone where the category name has
    an entry and else appends an entry named and identified after it. *)
Section category_map.
Context {FC : Type} (categoryOf : FC → jstring).
Context (step : list (jstring * RSSCategory.t) * nat → FC
                → list (jstring * RSSCategory.t) * nat).
Hypothesis step_entries : ∀ acc f,
  (categoryOf f ∈ acc.1.*1 ∧ (step acc f).1 = acc.1)
  ∨ ((categoryOf f ∉ acc.1.*1)
     ∧ ∃ c, (step acc f).1 = acc.1 ++ [(categoryOf f, c)]
            ∧ RSSCategory.name c = categoryOf f
            ∧ RSSCategory.id c = categoryIdOf (categoryOf f)).

Lemma step_ok fcs acc f :
  categoryMap_ok categoryOf fcs acc.1 →
  categoryMap_ok categoryOf (fcs ++ [f]) (step acc f).1.
Proof.
  intros (Hnd & Hent & Hall).
  destruct (step_entries acc f) as [[Hin ->] | (Hout & c & -> & Hname & Hid)].
  - split; [done|]. split.
    + intros k c Hkc. destruct (Hent k c Hkc) as (? & ? & g & ? & ?).
      repeat split; try done. exists g. split; [|done].
      apply elem_of_app. by left.
    + intros g [Hg|Hg%list_elem_of_singleton]%elem_of_app; [by apply Hall|].
      by subst g.
  - unfold categoryMap_ok. rewrite fmap_app. simpl. split; [|split].
    + apply NoDup_app. split; [done|]. split; [|apply NoDup_singleton].
      intros k Hk ->%list_elem_of_singleton. done.
    + intros k c' [Hkc|Hkc%list_elem_of_singleton]%elem_of_app.
      * destruct (Hent k c' Hkc) as (? & ? & g & ? & ?).
        repeat split; try done. exists g. split; [|done].
        apply elem_of_app. by left.
      * injection Hkc as -> ->. repeat split; try done.
        exists f. split; [|done]. apply elem_of_app. right. by left.
    + intros g [Hg|Hg%list_elem_of_singleton]%elem_of_app.
      * apply elem_of_app. left. by apply Hall.
      * subst g. apply elem_of_app. right. by left.
Qed.

Lemma fold_step_ok fcs seen acc :
  categoryMap_ok categoryOf seen acc.1 →
  categoryMap_ok categoryOf (seen ++ fcs) (fold_left step fcs acc).1.
Proof.
  revert seen acc. induction fcs as [|f fcs IH]; intros seen acc Hok; simpl.
  - by rewrite (right_id_L [] (++)).
  - rewrite (cons_middle f), (assoc_L (++)).
    apply IH. by apply step_ok.
Qed.

Lemma built_ok feeds :
  categoryMap_ok categoryOf feeds (fold_left step feeds ([], 0%nat)).1.
Proof.
  apply (fold_step_ok feeds [] ([], 0%nat)).
  split; [constructor|]. split.
  - by intros k c ?%elem_of_nil.
  - by intros f ?%elem_of_nil.
Qed.

Lemma values_names (m : list (jstring * RSSCategory.t)) :
  (∀ k c, (k, c) ∈ m → RSSCategory.name c = k) →
  RSSCategory.name <$> m.*2 = m.*1.
Proof.
  induction m as [|[k c] m IH]; intros Hent; [done|]. simpl. f_equal.
  - apply Hent. by left.
  - apply IH. intros k' c' Hin. apply Hent. by right.
Qed.

(** The categories handed to [setCategories]. *)
Lemma built_categories feeds :
  let categories := (fold_left step feeds ([], 0%nat)).1.*2 in
  NoDup (RSSCategory.name <$> categories)
  ∧ (∀ c, c ∈ categories →
          RSSCategory.id c = categoryIdOf (RSSCategory.name c))
  ∧ (names_normalize_apart categoryOf feeds →
     distinct_category_ids categories
     ∧ filter_selects_one_entry categoryOf feeds categories).
Proof.
  intros categories.
  destruct (built_ok feeds) as (Hnd & Hent & _).
  assert (Hentry : ∀ c, c ∈ categories →
    RSSCategory.id c = categoryIdOf (RSSCategory.name c)
    ∧ ∃ f, f ∈ feeds ∧ categoryOf f = RSSCategory.name c).
  { intros c ([k c'] & -> & Hin)%list_elem_of_fmap. simpl.
    destruct (Hent k c' Hin) as (-> & ? & ?). done. }
  assert (Hnames : NoDup (RSSCategory.name <$> categories)).
  { unfold categories. rewrite values_names; [done|].
    intros k c Hkc. by destruct (Hent k c Hkc). }
  split; [done|]. split; [intros c Hc; by destruct (Hentry c Hc)|].
  intros Hinj. split.
  - unfold distinct_category_ids. clear Hnd Hent.
    induction categories as [|c cats IH]; [constructor|].
    rewrite fmap_cons in Hnames. apply NoDup_cons in Hnames as [Hc Hnames].
    rewrite fmap_cons. apply NoDup_cons. split.
    + intros (d & Hid & Hd)%list_elem_of_fmap. apply Hc.
      apply list_elem_of_fmap. exists d. split; [|done].
      destruct (Hentry c) as (Hc1 & f & Hf & Hfc); [by left|].
      destruct (Hentry d) as (Hd1 & g & Hg & Hgd); [by right|].
      rewrite <- Hfc, <- Hgd. apply Hinj; [done..|].
      rewrite Hfc, Hgd. congruence.
    + apply IH; [|done]. intros d Hd. apply Hentry. by right.
  - intros c Hc.
    destruct (Hentry c Hc) as (Hid & f & Hf & Hfc).
    apply filter_agree. intros g Hg. split.
    + intros Hgid. rewrite <- Hfc. apply Hinj; [done..|].
      rewrite Hfc. congruence.
    + intros Hgc. congruence.
Qed.

End category_map.

Lemma categoryStep_entries acc f :
  (RSSFeedConfig.category f ∈ acc.1.*1 ∧ (categoryStep acc f).1 = acc.1)
  ∨ ((RSSFeedConfig.category f ∉ acc.1.*1)
     ∧ ∃ c, (categoryStep acc f).1 = acc.1 ++ [(RSSFeedConfig.category f, c)]
            ∧ RSSCategory.name c = RSSFeedConfig.category f
            ∧ RSSCategory.id c = categoryIdOf (RSSFeedConfig.category f)).
Proof.
  unfold categoryStep. case_decide; [by left|]. right. split; [done|].
  by eexists.
Qed.

Lemma page_categoryStep_entries acc f :
  (Page.FeedConfig.category f ∈ acc.1.*1 ∧ (Page.categoryStep acc f).1 = acc.1)
  ∨ ((Page.FeedConfig.category f ∉ acc.1.*1)
     ∧ ∃ c, (Page.categoryStep acc f).1
            = acc.1 ++ [(Page.FeedConfig.category f, c)]
            ∧ RSSCategory.name c = Page.FeedConfig.category f
            ∧ RSSCategory.id c = categoryIdOf (Page.FeedConfig.category f)).
Proof.
  unfold Page.categoryStep. case_decide; [by left|]. right. split; [done|].
  by eexists.
Qed.

(** "Tech News" and "tech  news" make two categories with the id
    "tech-news", and the filter for that id selects the feed configs of
    both. *)
Lemma two_spellings_share_an_id :
  ¬ distinct_category_ids (buildCategories twoSpellings)
  ∧ ¬ filter_selects_one_entry RSSFeedConfig.category
        (RSSConfig.feeds twoSpellings) (buildCategories twoSpellings)
  ∧ ¬ distinct_category_ids (Page.buildCategories Scene.pageTwoSpellings).
Proof.
  split; [|split].
  - unfold distinct_category_ids. vm_compute.
    intros [Hnot _]%NoDup_cons. apply Hnot. by left.
  - intros H.
    assert (Hin : newCategory 0 (RSSFeedConfig.mk (js "Hacker News")
                    (js "https://news.example/rss") (js "Tech News") (js "links"))
                  ∈ buildCategories twoSpellings) by (vm_compute; by left).
    specialize (H _ Hin). vm_compute in H. discriminate H.
  - unfold distinct_category_ids. vm_compute.
    intros [Hnot _]%NoDup_cons. apply Hnot. by left.
Qed.

(** C8 (amended). In both components the generated categories have
    pairwise distinct names, and the id of each is its name lower-cased
    with every run of white space replaced by ['-']. Where no two
    different category names of the configuration have one id, the ids
    are pairwise distinct as well and the filter of [loadFeedsForCategory]
    selects exactly the feed configs of one category entry. *)
Theorem category_ids_distinct_when_names_normalize_apart :
  (∀ config : RSSConfig.t,
     NoDup (RSSCategory.name <$> buildCategories config)
     ∧ (∀ c, c ∈ buildCategories config →
             RSSCategory.id c = categoryIdOf (RSSCategory.name c))
     ∧ (names_normalize_apart RSSFeedConfig.category (RSSConfig.feeds config) →
        distinct_category_ids (buildCategories config)
        ∧ ∀ c, c ∈ buildCategories config →
               feedConfigsOf config (RSSCategory.id c)
               = filter (λ f, RSSFeedConfig.category f = RSSCategory.name c)
                        (RSSConfig.feeds config)))
  ∧ (∀ feeds : list Page.FeedConfig.t,
       NoDup (RSSCategory.name <$> Page.buildCategories feeds)
       ∧ (∀ c, c ∈ Page.buildCategories feeds →
               RSSCategory.id c = categoryIdOf (RSSCategory.name c))
       ∧ (names_normalize_apart Page.FeedConfig.category feeds →
          distinct_category_ids (Page.buildCategories feeds)
          ∧ ∀ c, c ∈ Page.buildCategories feeds →
                 Page.feedConfigsOf feeds (RSSCategory.id c)
                 = filter (λ f, Page.FeedConfig.category f = RSSCategory.name c)
                          feeds)).
Proof.
  split.
  - intros config.
    apply (built_categories RSSFeedConfig.category categoryStep
             categoryStep_entries (RSSConfig.feeds config)).
  - intros feeds.
    apply (built_categories Page.FeedConfig.category Page.categoryStep
             page_categoryStep_entries feeds).
Qed.

Lemma category_ids_distinct_witness :
  distinct_category_ids (buildCategories oneSpelling)
  ∧ ∀ c, c ∈ buildCategories oneSpelling →
         feedConfigsOf oneSpelling (RSSCategory.id c)
         = filter (λ f, RSSFeedConfig.category f = RSSCategory.name c)
                  (RSSConfig.feeds oneSpelling).
Proof.
  destruct category_ids_distinct_when_names_normalize_apart as [Happ _].
  apply (Happ oneSpelling).
  intros f g Hf Hg.
  unfold oneSpelling in Hf, Hg. simpl in Hf, Hg.
  repeat match goal with
         | H : _ ∈ _ :: _ |- _ => apply elem_of_cons in H as [->|H]
         | H : _ ∈ [] |- _ => by apply elem_of_nil in H
         end; vm_compute; intros Heq; first [reflexivity | discriminate Heq].
Defined.

(** ** C9: what a refresh clears and what it leaves *)

Section app_refresh.
Import App.

Lemma loadFeedsForCategory_frame net c s :
  let s' := loadFeedsForCategory net c s in
  categories s' = categories s
  ∧ selectedCategory s' = selectedCategory s
  ∧ rssConfig s' = rssConfig s
  ∧ (∀ k, k ≠ c → feedsByCategory s' !! k = feedsByCategory s !! k)
  ∧ (expandedSources s' = expandedSources s
     ∨ expandedSources s'
       = list_to_set (RSSItem.feedName <$> Cache.feedsOf (feedsByCategory s') c)).
Proof.
  unfold loadFeedsForCategory.
  destruct (rssConfig s) as [config|] eqn:Hcfg; [|by auto 10].
  destruct (list_find _ (categories s)) as [[i category]|]; simpl.
  - repeat split; try done.
    + intros k Hk. by rewrite lookup_insert_ne.
    + right. unfold Cache.feedsOf. by rewrite lookup_insert_eq.
  - by auto 10.
Qed.

End app_refresh.

Section page_refresh.
Import Page.

Lemma untouched_trans s1 s2 s3 :
  untouched s1 s2 → untouched s2 s3 → untouched s1 s3.
Proof. unfold untouched. intuition congruence. Qed.

Lemma perform_untouched s a : untouched s (perform s a).
Proof.
  destruct a as [batch|ms]; [|done]. simpl.
  revert s. induction batch as [|fc batch IH]; intros s; [done|]. simpl.
  eapply untouched_trans; [|apply IH]. done.
Qed.

Lemma fold_perform_untouched actions s :
  untouched s (fold_left perform actions s).
Proof.
  revert s. induction actions as [|a actions IH]; intros s; [done|]. simpl.
  eapply untouched_trans; [apply perform_untouched | apply IH].
Qed.

Lemma loadFeedsForCategory_untouched c s :
  untouched s (loadFeedsForCategory c s).
Proof.
  unfold loadFeedsForCategory. case_decide; [done|].
  destruct (rssConfig (rssData s)); [|done].
  destruct (list_find _ _); [|done].
  eapply untouched_trans; [|apply fold_perform_untouched]. done.
Qed.

Lemma handleRefresh_untouched s : untouched s (handleRefresh s).
Proof.
  unfold handleRefresh. destruct (selectedCategory s) as [[|u c]|] eqn:Hsel;
    simpl; try done.
  eapply untouched_trans; [|apply loadFeedsForCategory_untouched]. done.
Qed.

Lemma fetchSettled_untouched c category fc fetched s :
  untouched s (fetchSettled c category fc fetched s).
Proof.
  unfold fetchSettled.
  by destruct (withCategoryAndFeedName _ _ <$> default [] fetched).
Qed.

Lemma settleAll_untouched c arrivals s : untouched s (settleAll c arrivals s).
Proof.
  unfold settleAll. revert s.
  induction arrivals as [|a arrivals IH]; intros s; [done|]. simpl.
  eapply untouched_trans; [apply fetchSettled_untouched | apply IH].
Qed.

Lemma fetchSettled_other_keys c category fc fetched s k :
  k ≠ c →
  feedsByCategory (rssData (fetchSettled c category fc fetched s)) !! k
  = feedsByCategory (rssData s) !! k.
Proof.
  intros Hk. unfold fetchSettled.
  destruct (withCategoryAndFeedName _ _ <$> default [] fetched); simpl; [done|].
  unfold Cache.addFeedsToCategory. by rewrite lookup_insert_ne.
Qed.

Lemma settleAll_other_keys c arrivals s k :
  k ≠ c →
  feedsByCategory (rssData (settleAll c arrivals s)) !! k
  = feedsByCategory (rssData s) !! k.
Proof.
  intros Hk. unfold settleAll. revert s.
  induction arrivals as [|a arrivals IH]; intros s; [done|]. simpl.
  by rewrite IH, fetchSettled_other_keys.
Qed.

Lemma fetchSettled_expanded c category fc fetched s :
  expandedSources s ⊆ expandedSources (fetchSettled c category fc fetched s).
Proof.
  unfold fetchSettled.
  destruct (withCategoryAndFeedName _ _ <$> default [] fetched); simpl;
    set_solver.
Qed.

Lemma loadFeedsForCategory_isSorted c s :
  isSorted (loadFeedsForCategory c s) = isSorted s.
Proof.
  unfold loadFeedsForCategory. case_decide; [done|].
  destruct (rssConfig (rssData s)); [|done].
  destruct (list_find _ _); [|done].
  generalize (batchLoop (feedConfigsOf l c) 0). intros actions.
  assert (Hkeep : ∀ s0, isSorted (fold_left perform actions s0) = isSorted s0);
    [|by rewrite Hkeep].
  induction actions as [|a actions IH]; intros s0; [done|]. simpl.
  rewrite IH. destruct a as [batch|ms]; [|done]. simpl.
  revert s0. induction batch as [|fc batch IHb]; intros s0; [done|].
  simpl. by rewrite IHb.
Qed.

Lemma settleAll_isSorted c arrivals s :
  isSorted (settleAll c arrivals s) = isSorted s.
Proof.
  unfold settleAll. revert s.
  induction arrivals as [|a arrivals IH]; intros s; [done|]. simpl.
  rewrite IH. unfold fetchSettled.
  by destruct (withCategoryAndFeedName _ _ <$> default [] a.2).
Qed.

Lemma handleRefresh_isSorted s : isSorted (handleRefresh s) = false.
Proof.
  unfold handleRefresh. destruct (selectedCategory s) as [[|u c]|]; try done.
  simpl. by rewrite loadFeedsForCategory_isSorted.
Qed.

Lemma handleRefresh_other_keys s k :
  Some k ≠ selectedCategory s →
  feedsByCategory (rssData (handleRefresh s)) !! k = None.
Proof.
  intros Hk. unfold handleRefresh.
  destruct (selectedCategory s) as [[|u c]|]; simpl; try done.
  destruct (loadFeedsForCategory_cache (u :: c)
              (setIsSorted false (resetLoadingState (clearAllFeeds s))))
    as [-> | ->]; simpl; [done|].
  rewrite lookup_insert_ne; [done | congruence].
Qed.

End page_refresh.

(** A source collapsed by hand is expanded again by a refresh, so a
    refresh in src/App.tsx touches more than the cache and the flags. *)
Lemma refresh_expands_collapsed_source :
  ¬ App.refresh_touches_only_cache_and_flags
      Scene.collapsed (App.handleRefresh Scene.net Scene.collapsed).
Proof.
  intros (_ & _ & _ & Hexp & _).
  apply (f_equal (λ X : gset jstring, bool_decide (js "Blog" ∈ X))) in Hexp.
  vm_compute in Hexp. discriminate Hexp.
Qed.

(** C9 (amended). A refresh empties the whole cache before it reloads:
    afterwards no category but the selected one has a cached feed, in
    src/App.tsx when [handleRefresh] is through and in [RSSPage] when it
    is through and also after any responses for the selected category
    have come in. It leaves the categories, the configuration and the
    selected category as they are. Besides the cache and the loading and
    error state it may change the set of expanded sources, which
    src/App.tsx keeps or sets to the sources of the reloaded feeds and to
    which [RSSPage] only adds, and in [RSSPage] it resets [isSorted]. *)
Theorem refresh_clears_whole_cache :
  (∀ net s,
     let s' := App.handleRefresh net s in
     (∀ k, Some k ≠ App.selectedCategory s →
           App.feedsByCategory s' !! k = None
           ∧ Cache.feedsOf (App.feedsByCategory s') k = [])
     ∧ App.categories s' = App.categories s
     ∧ App.selectedCategory s' = App.selectedCategory s
     ∧ App.rssConfig s' = App.rssConfig s
     ∧ (App.expandedSources s' = App.expandedSources s
        ∨ ∃ c, App.selectedCategory s = Some c
               ∧ App.expandedSources s'
                 = list_to_set (RSSItem.feedName
                                <$> Cache.feedsOf (App.feedsByCategory s') c)))
  ∧ (∀ s k, Some k ≠ Page.selectedCategory s →
            Page.feedsByCategory (Page.rssData (Page.handleRefresh s)) !! k
            = None)
  ∧ (∀ s c arrivals,
       Page.selectedCategory s = Some c →
       let s' := Page.settleAll c arrivals (Page.handleRefresh s) in
       (∀ k, k ≠ c →
             Page.feedsByCategory (Page.rssData s') !! k = None
             ∧ Cache.feedsOf (Page.feedsByCategory (Page.rssData s')) k = [])
       ∧ Page.untouched s s'
       ∧ Page.expandedSources s ⊆ Page.expandedSources s'
       ∧ Page.isSorted s' = false).
Proof.
  split.
  - intros net s s'.
    assert (Hempty : ∀ k, Some k ≠ App.selectedCategory s →
                          App.feedsByCategory s' !! k = None).
    { intros k Hk. unfold s', App.handleRefresh.
      destruct (App.selectedCategory s) as [[|u c]|]; simpl; try done.
      destruct (loadFeedsForCategory_frame net (u :: c)
                  (App.setFeedsByCategory (λ _, ∅) s)) as (_ & _ & _ & Hother & _).
      rewrite Hother by congruence. done. }
    split.
    { intros k Hk. split; [by apply Hempty|].
      unfold Cache.feedsOf. by rewrite Hempty. }
    unfold s', App.handleRefresh.
    destruct (App.selectedCategory s) as [[|u c]|] eqn:Hsel; simpl;
      try by auto 10.
    destruct (loadFeedsForCategory_frame net (u :: c)
                (App.setFeedsByCategory (λ _, ∅) s))
      as (-> & -> & -> & _ & Hexp).
    simpl. repeat split; try done.
    destruct Hexp as [->| ->]; [by left|]. right. by exists (u :: c).
  - split; [intros s k Hk; by apply handleRefresh_other_keys|].
    intros s c arrivals Hsel s'. split; [|split; [|split]].
    + intros k Hk.
      assert (Hnone : Page.feedsByCategory (Page.rssData s') !! k = None).
      { unfold s'. rewrite settleAll_other_keys by done.
        apply handleRefresh_other_keys. rewrite Hsel. congruence. }
      split; [done|]. unfold Cache.feedsOf. by rewrite Hnone.
    + unfold s'. eapply untouched_trans;
        [apply handleRefresh_untouched | apply settleAll_untouched].
    + unfold s'. transitivity (Page.expandedSources (Page.handleRefresh s)).
      * unfold Page.handleRefresh. rewrite Hsel.
        destruct (truthy (Some c)); [|done].
        unfold Page.loadFeedsForCategory. case_decide; [done|].
        destruct (Page.rssConfig _); [|done].
        destruct (list_find _ _); [|done].
        generalize (Page.batchLoop (Page.feedConfigsOf l c) 0).
        intros actions.
        assert (Hkeep : ∀ s0, Page.expandedSources (fold_left Page.perform actions s0)
                          = Page.expandedSources s0); [|by rewrite Hkeep].
        induction actions as [|a actions IH]; intros s0; [done|]. simpl.
        rewrite IH. destruct a as [batch|ms]; [|done]. simpl.
        revert s0. induction batch as [|fc batch IHb]; intros s0; [done|].
        simpl. by rewrite IHb.
      * unfold Page.settleAll. generalize (Page.handleRefresh s).
        induction arrivals as [|a arrivals IH]; intros s0; [done|]. simpl.
        etransitivity; [|apply IH]. apply fetchSettled_expanded.
    + unfold s'. rewrite settleAll_isSorted. apply handleRefresh_isSorted.
Qed.

Lemma refresh_clears_whole_cache_witness :
  Cache.feedsOf (Page.feedsByCategory (Page.rssData Scene.pageWithCustom))
                (js "custom") ≠ []
  ∧ Cache.feedsOf
      (Page.feedsByCategory
         (Page.rssData (Page.settleAll (js "tech") []
                          (Page.handleRefresh Scene.pageWithCustom))))
      (js "custom") = [].
Proof.
  split; [by vm_compute|].
  destruct refresh_clears_whole_cache as (_ & _ & Hpage).
  destruct (Hpage Scene.pageWithCustom (js "tech") [] eq_refl) as (Hother & _).
  apply Hother. vm_compute. discriminate.
Defined.

(** ** C10: toggling a source *)

(** C10. Toggling a source name twice gives the set back; toggling it once
    flips the membership of that name and of no other name. *)
Theorem toggleSource_involution (S : gset jstring) (n : jstring) :
  toggleSource n (toggleSource n S) = S
  ∧ (n ∈ toggleSource n S ↔ n ∉ S)
  ∧ (∀ m, m ≠ n → (m ∈ toggleSource n S ↔ m ∈ S)).
Proof.
  unfold toggleSource. repeat split.
  - destruct (decide (n ∈ S)) as [Hin|Hout].
    + rewrite decide_False by set_solver.
      apply set_eq. intros m. destruct (decide (m = n)); set_solver.
    + rewrite decide_True by set_solver.
      apply set_eq. intros m. destruct (decide (m = n)); set_solver.
  - case_decide; set_solver.
  - case_decide; set_solver.
  - case_decide; set_solver.
  - case_decide; set_solver.
Qed.

Lemma toggleSource_involution_witness :
  js "News" ∈ toggleSource (js "Blog") {[js "News"]}
  ↔ js "News" ∈ ({[js "News"]} : gset jstring).
Proof.
  destruct (toggleSource_involution {[js "News"]} (js "Blog")) as (_ & _ & H).
  apply H. vm_compute. discriminate.
Defined.

(** * Further properties *)

(** ** Merging into the cache *)

Section cache_more.
Import Cache.
Implicit Types (s : gmap jstring (list RSSItem.t)) (l : list RSSItem.t).

Lemma uniqueFeeds_link_set seen l :
  list_to_set (RSSItem.link <$> uniqueFeeds seen l) ∪ seen
  = list_to_set (RSSItem.link <$> l) ∪ seen.
Proof.
  revert seen. induction l as [|y l IH]; intros seen; [done|].
  cbn [uniqueFeeds]. rewrite fmap_cons, list_to_set_cons.
  apply set_eq. intros x. case_decide as Hy.
  - rewrite IH, !elem_of_union, elem_of_singleton.
    split; [tauto|]. intros [[->|?]|?]; auto.
  - rewrite fmap_cons, list_to_set_cons.
    assert (IH' : x ∈ list_to_set (RSSItem.link <$>
                        uniqueFeeds ({[RSSItem.link y]} ∪ seen) l)
                      ∪ ({[RSSItem.link y]} ∪ seen)
                  ↔ x ∈ list_to_set (RSSItem.link <$> l)
                        ∪ ({[RSSItem.link y]} ∪ seen))
      by (by rewrite IH).
    rewrite !elem_of_union, !elem_of_singleton in IH'.
    rewrite !elem_of_union, !elem_of_singleton. tauto.
Qed.

Lemma uniqueFeeds_all_seen seen l :
  (∀ x, x ∈ l → RSSItem.link x ∈ seen) → uniqueFeeds seen l = [].
Proof.
  induction l as [|y l IH]; intros Hseen; simpl; [done|].
  rewrite decide_True by (apply Hseen; by left).
  apply IH. intros x Hx. apply Hseen. by right.
Qed.

Lemma uniqueFeeds_again l b :
  uniqueFeeds ∅ (uniqueFeeds ∅ l ++ b) = uniqueFeeds ∅ (l ++ b).
Proof.
  rewrite !uniqueFeeds_app. f_equal.
  - apply uniqueFeeds_id; [apply uniqueFeeds_NoDup|].
    intros ? _. apply not_elem_of_empty.
  - f_equal. apply uniqueFeeds_link_set.
Qed.

End cache_more.

(** X1. Two batches added one after the other to a category leave the
    cache as the two put together and added at once do: what is stored
    depends on the order in which items come in, not on how the responses
    cut them up. *)
Theorem addFeedsToCategory_batches_compose
    (s : gmap jstring (list RSSItem.t)) (categoryId : jstring)
    (batch1 batch2 : list RSSItem.t) :
  Cache.addFeedsToCategory categoryId batch2
    (Cache.addFeedsToCategory categoryId batch1 s)
  = Cache.addFeedsToCategory categoryId (batch1 ++ batch2) s.
Proof.
  unfold Cache.addFeedsToCategory at 1.
  rewrite feedsOf_addFeedsToCategory, uniqueFeeds_again.
  unfold Cache.addFeedsToCategory. rewrite insert_insert_eq.
  by rewrite (assoc_L (++)).
Qed.

(** X2. Adding a batch a second time changes nothing: a response that
    comes in again leaves the cache as it is. *)
Theorem addFeedsToCategory_idempotent
    (s : gmap jstring (list RSSItem.t)) (categoryId : jstring)
    (batch : list RSSItem.t) :
  Cache.addFeedsToCategory categoryId batch
    (Cache.addFeedsToCategory categoryId batch s)
  = Cache.addFeedsToCategory categoryId batch s.
Proof.
  unfold Cache.addFeedsToCategory at 1.
  rewrite feedsOf_addFeedsToCategory.
  unfold Cache.addFeedsToCategory. rewrite insert_insert_eq. f_equal.
  rewrite uniqueFeeds_app.
  rewrite (uniqueFeeds_id ∅ (Cache.uniqueFeeds ∅ _));
    [|apply uniqueFeeds_NoDup | intros ? _; apply not_elem_of_empty].
  assert (Hseen : Cache.uniqueFeeds
            (list_to_set (RSSItem.link <$>
               Cache.uniqueFeeds ∅ (Cache.feedsOf s categoryId ++ batch)) ∪ ∅)
            batch = []).
  { apply uniqueFeeds_all_seen. intros x Hx.
    rewrite uniqueFeeds_link_set. apply elem_of_union. left.
    apply elem_of_list_to_set, list_elem_of_fmap. exists x. split; [done|].
    apply elem_of_app. by right. }
  rewrite Hseen. apply app_nil_r.
Qed.

(** X3. Adding feeds loses no link and invents none: the links stored for
    the category afterwards are those stored before together with those
    of the batch; and the lists of the other categories are left as they
    are, so that additions to two different categories can come in either
    order. *)
Theorem addFeedsToCategory_links_and_frame
    (s : gmap jstring (list RSSItem.t)) (categoryId : jstring)
    (batch : list RSSItem.t) :
  (list_to_set (RSSItem.link
                <$> Cache.feedsOf (Cache.addFeedsToCategory categoryId batch s)
                                  categoryId) : gset jstring)
  = list_to_set (RSSItem.link <$> Cache.feedsOf s categoryId)
    ∪ list_to_set (RSSItem.link <$> batch)
  ∧ (∀ other, other ≠ categoryId →
       Cache.addFeedsToCategory categoryId batch s !! other = s !! other)
  ∧ (∀ other batch', other ≠ categoryId →
       Cache.addFeedsToCategory categoryId batch
         (Cache.addFeedsToCategory other batch' s)
       = Cache.addFeedsToCategory other batch'
           (Cache.addFeedsToCategory categoryId batch s)).
Proof.
  split; [|split].
  - rewrite feedsOf_addFeedsToCategory.
    pose proof (uniqueFeeds_link_set ∅ (Cache.feedsOf s categoryId ++ batch)) as H.
    rewrite !(right_id_L ∅ (∪)) in H. rewrite H, fmap_app.
    apply set_eq. intros x. rewrite list_to_set_app_L. done.
  - intros other Hother. unfold Cache.addFeedsToCategory.
    by rewrite lookup_insert_ne.
  - intros other batch' Hother. unfold Cache.addFeedsToCategory, Cache.feedsOf.
    rewrite !lookup_insert_ne by done.
    by rewrite insert_insert_ne.
Qed.

Lemma addFeedsToCategory_links_and_frame_witness :
  Cache.addFeedsToCategory (js "tech") [Cache.newer]
    (Cache.addFeedsToCategory (js "world") [Scene.abroad] ∅)
  = Cache.addFeedsToCategory (js "world") [Scene.abroad]
      (Cache.addFeedsToCategory (js "tech") [Cache.newer] ∅).
Proof.
  destruct (addFeedsToCategory_links_and_frame ∅ (js "tech") [Cache.newer])
    as (_ & _ & H).
  apply H. vm_compute. discriminate.
Defined.

(** ** Strings *)

Section strings_more.
Import JsString.
Implicit Types (s : jstring).

Lemma skipTag_Some_gt s behind :
  skipTag s = Some behind → ∃ j, s !! j = Some gt_sign.
Proof.
  revert behind. induction s as [|c s IH]; intros behind; simpl; [done|].
  case_bool_decide as Hc.
  - intros _. exists 0%nat. by rewrite Hc.
  - intros [j Hj]%IH. by exists (S j).
Qed.

Lemma matchTag_Some_tag s behind :
  matchTag s = Some behind → hasCompleteTag s.
Proof.
  destruct s as [|c s]; simpl; [done|]. case_bool_decide as Hc; [|done].
  intros [j Hj]%skipTag_Some_gt. exists 0%nat, (S j).
  split; [lia|]. by rewrite Hc.
Qed.

Lemma no_tag_tail c s : ¬ hasCompleteTag (c :: s) → ¬ hasCompleteTag s.
Proof.
  intros H (i & j & ? & ? & ?). apply H. exists (S i), (S j).
  split; [lia | done].
Qed.

Lemma stripTags_no_tag_id s : ¬ hasCompleteTag s → stripTags s = s.
Proof.
  funelim (stripTags s); simp stripTags; intros Hno.
  - done.
  - destruct Hno. by eapply matchTag_Some_tag.
  - f_equal. match goal with IH : _ → stripTags _ = _ |- _ => apply IH end.
    by eapply no_tag_tail.
Qed.

Lemma dropWs_head s c : head (dropWs s) = Some c → is_ws c = false.
Proof.
  induction s as [|d s IH]; simpl; [done|].
  destruct (is_ws d) eqn:Hd; [done|]. simpl. by intros [= <-].
Qed.

Lemma dropWs_id s :
  (∀ c, head s = Some c → is_ws c = false) → dropWs s = s.
Proof.
  destruct s as [|d s]; [done|]. simpl. intros H.
  by rewrite (H d eq_refl).
Qed.

Lemma trim_head s c : head (trim s) = Some c → is_ws c = false.
Proof.
  unfold trim.
  destruct (dropWs_suffix (reverse (dropWs s))) as [a Ha].
  apply (f_equal reverse) in Ha.
  rewrite reverse_involutive, reverse_app in Ha.
  destruct (reverse (dropWs (reverse (dropWs s)))) as [|d t] eqn:Ht; [done|].
  simpl. intros [= <-]. apply (dropWs_head s). by rewrite Ha.
Qed.

Lemma trim_last s c : last (trim s) = Some c → is_ws c = false.
Proof.
  unfold trim. rewrite last_reverse. apply dropWs_head.
Qed.

Lemma trim_id s :
  (∀ c, head s = Some c → is_ws c = false) →
  (∀ c, last s = Some c → is_ws c = false) →
  trim s = s.
Proof.
  intros Hh Hl. unfold trim. rewrite (dropWs_id s Hh).
  rewrite dropWs_id; [apply reverse_involutive|].
  intros c. rewrite head_reverse. apply Hl.
Qed.

Lemma trim_trim s : trim (trim s) = trim s.
Proof. apply trim_id; [apply trim_head | apply trim_last]. Qed.

Lemma toLowerCase_no_ws s :
  Forall (λ c, is_ws c = false) s →
  Forall (λ c, is_ws c = false) (toLowerCase s).
Proof.
  unfold toLowerCase. intros H. apply Forall_fmap.
  eapply Forall_impl; [done|]. intros c Hc. simpl.
  destruct ((65 <=? c) && (c <=? 90))%N eqn:Hup; [|done].
  apply andb_true_iff in Hup as [H1 H2].
  apply N.leb_le in H1, H2.
  unfold is_ws. apply orb_false_iff. split.
  - apply bool_decide_eq_false. intros Hin.
    repeat (apply elem_of_cons in Hin as [Hin|Hin]; [lia|]).
    by apply elem_of_nil in Hin.
  - apply andb_false_iff. left. apply N.leb_gt. lia.
Qed.





End strings_more.

Lemma stripHtml_no_tag html : ¬ hasCompleteTag (stripHtml html).
Proof.
  unfold stripHtml. destruct (truthy html).
  - destruct (trim_infix (JsString.stripTags (default [] html)))
      as (a & b & Heq).
    apply (no_tag_infix a _ b). rewrite <- Heq. apply stripTags_no_tag.
  - intros (i & j & _ & Hi & _). by rewrite lookup_nil in Hi.
Qed.

(** X4. Stripping a second time changes nothing; the output of [stripHtml]
    neither begins nor ends with white space; and a text in which no tag
    is complete, so also one without any ['<'], is only trimmed. *)
Theorem stripHtml_idempotent (html : option jstring) :
  stripHtml (Some (stripHtml html)) = stripHtml html
  ∧ (∀ c, head (stripHtml html) = Some c → JsString.is_ws c = false)
  ∧ (∀ c, last (stripHtml html) = Some c → JsString.is_ws c = false)
  ∧ (∀ s, ¬ hasCompleteTag s → stripHtml (Some s) = JsString.trim s).
Proof.
  assert (Hplain : ∀ s, ¬ hasCompleteTag s → stripHtml (Some s) = JsString.trim s).
  { intros s Hs. unfold stripHtml. destruct s as [|c s]; [done|]. simpl.
    by rewrite stripTags_no_tag_id. }
  assert (Hout : ∀ h, stripHtml h = []
                      ∨ stripHtml h
                        = JsString.trim (JsString.stripTags (default [] h))).
  { intros h. unfold stripHtml. destruct (truthy h); auto. }
  split; [|split; [|split; [|done]]].
  - rewrite Hplain by apply stripHtml_no_tag.
    destruct (Hout html) as [-> | ->]; [done | apply trim_trim].
  - intros c. destruct (Hout html) as [-> | ->]; [done | apply trim_head].
  - intros c. destruct (Hout html) as [-> | ->]; [done | apply trim_last].
Qed.

Lemma stripHtml_idempotent_witness :
  stripHtml (Some (js " a < b ")) = js "a < b".
Proof.
  destruct (stripHtml_idempotent None) as (_ & _ & _ & Hplain).
  rewrite Hplain; [by vm_compute|].
  intros (i & j & Hij & Hi & Hj).
  apply list_elem_of_lookup_2 in Hj. revert Hj.
  apply (bool_decide_eq_false_1 _). by vm_compute.
Defined.


(** X6. [truncateText] hands a text of at most [maxLength] code units
    (and [null], and the empty text) back as it is; a longer one becomes
    its first [maxLength] code units followed by ["..."], which is
    [maxLength + 3] long; and truncating what was truncated changes
    nothing. *)
Theorem truncateText_bounds (text : option jstring) (maxLength : nat) :
  truncateText None maxLength = None
  ∧ (∀ s, (length s ≤ maxLength)%nat → truncateText (Some s) maxLength = Some s)
  ∧ (∀ s, (maxLength < length s)%nat →
          truncateText (Some s) maxLength = Some (take maxLength s ++ js "...")
          ∧ length (take maxLength s ++ js "...") = (maxLength + 3)%nat)
  ∧ truncateText (truncateText text maxLength) maxLength
    = truncateText text maxLength.
Proof.
  assert (Hshort : ∀ s, (length s ≤ maxLength)%nat →
                        truncateText (Some s) maxLength = Some s).
  { intros [|c s] Hs; [done|]. unfold truncateText. by rewrite decide_True. }
  assert (Hlong : ∀ s, (maxLength < length s)%nat →
            truncateText (Some s) maxLength = Some (take maxLength s ++ js "...")).
  { intros [|c s] Hs; [simpl in Hs; lia|].
    unfold truncateText. rewrite decide_False by lia. done. }
  split; [done|]. split; [done|]. split.
  - intros s Hs. split; [by apply Hlong|].
    rewrite length_app, length_take. simpl. lia.
  - destruct text as [s|]; [|done].
    destruct (decide (length s ≤ maxLength)%nat) as [Hs|Hs].
    + by rewrite !Hshort.
    + rewrite (Hlong s) by lia. rewrite Hlong.
      * f_equal. f_equal. rewrite take_app_le by (rewrite length_take; lia).
        rewrite take_take. f_equal. lia.
      * rewrite length_app, length_take. simpl. lia.
Qed.

Lemma truncateText_bounds_witness :
  truncateText (Some (js "headline news")) 8 = Some (js "headline...").
Proof.
  destruct (truncateText_bounds None 8) as (_ & _ & Hlong & _).
  destruct (Hlong (js "headline news")) as [-> _]; [vm_compute; lia|].
  by vm_compute.
Defined.

(** ** Loading a category in [RSSPage] *)

Section page_loading.
Import Page.

Lemma fold_addLoadingFeed batch s :
  let s' := fold_left (λ s fc, addLoadingFeed (FeedConfig.title fc) s) batch s in
  rssData s' = rssData s
  ∧ loadingFeeds (loadingState s')
    = list_to_set (FeedConfig.title <$> batch) ∪ loadingFeeds (loadingState s)
  ∧ failedFeeds (loadingState s') = failedFeeds (loadingState s)
  ∧ loadedFeedsCount (loadingState s') = loadedFeedsCount (loadingState s).
Proof.
  revert s. induction batch as [|fc batch IH]; intros s; simpl.
  - repeat split; try done. by rewrite (left_id_L ∅ (∪)).
  - destruct (IH (addLoadingFeed (FeedConfig.title fc) s)) as (-> & -> & -> & ->).
    simpl. repeat split; try done. set_solver.
Qed.

Lemma fold_perform_paused batches s :
  let s' := fold_left perform (pausedBetween batches) s in
  rssData s' = rssData s
  ∧ loadingFeeds (loadingState s')
    = list_to_set (FeedConfig.title <$> concat batches)
      ∪ loadingFeeds (loadingState s)
  ∧ failedFeeds (loadingState s') = failedFeeds (loadingState s)
  ∧ loadedFeedsCount (loadingState s') = loadedFeedsCount (loadingState s).
Proof.
  revert s. induction batches as [|b batches IH]; intros s.
  - simpl. repeat split; try done. by rewrite (left_id_L ∅ (∪)).
  - assert (Hstep : fold_left perform (pausedBetween (b :: batches)) s
                    = fold_left perform (pausedBetween batches) (perform s (LaunchBatch b))).
    { destruct batches; done. }
    cbv zeta. rewrite Hstep.
    destruct (IH (perform s (LaunchBatch b))) as (-> & -> & -> & ->).
    destruct (fold_addLoadingFeed b s) as (Hd & Hl & Hf & Hc).
    simpl. rewrite Hd, Hl, Hf, Hc. repeat split; try done.
    rewrite fmap_app, list_to_set_app_L. set_solver.
Qed.

(** What [loadFeedsForCategory] leaves behind where it goes on to load. *)
Lemma loadFeedsForCategory_launched c feeds s :
  PageView.loadable c feeds s →
  let s' := loadFeedsForCategory c s in
  loadingFeeds (loadingState s')
  = list_to_set (FeedConfig.title <$> feedConfigsOf feeds c)
  ∧ failedFeeds (loadingState s') = []
  ∧ loadedFeedsCount (loadingState s') = 0%nat
  ∧ error (rssData s') = None
  ∧ feedsByCategory (rssData s') = <[c := []]> (feedsByCategory (rssData s)).
Proof.
  intros (Hc & Hcfg & [p Hfind]). unfold loadFeedsForCategory.
  rewrite decide_False by done. rewrite Hcfg, Hfind.
  destruct (batchLoop_from (feedConfigsOf feeds c) 0) as (batches & -> & Hcat & _).
  rewrite drop_0 in Hcat.
  destruct (fold_perform_paused batches
              (resetLoadingState (clearCategoryFeeds c (setError None s))))
    as (-> & -> & -> & ->).
  rewrite Hcat. simpl. repeat split; try done.
  by rewrite (right_id_L ∅ (∪)).
Qed.

Lemma fetchSettled_loading c category fc fetched s :
  let s' := fetchSettled c category fc fetched s in
  loadingFeeds (loadingState s')
  = loadingFeeds (loadingState s) ∖ {[FeedConfig.title fc]}
  ∧ (loadedFeedsCount (loadingState s') + length (failedFeeds (loadingState s'))
     = S (loadedFeedsCount (loadingState s) + length (failedFeeds (loadingState s))))%nat
  ∧ loading (rssData s') = loading (rssData s).
Proof.
  unfold fetchSettled.
  destruct (withCategoryAndFeedName _ _ <$> default [] fetched); simpl.
  - rewrite length_app. simpl. split; [done|]. split; [lia | done].
  - split; [done|]. split; [lia | done].
Qed.

Lemma settleAll_loading c arrivals s :
  let s' := settleAll c arrivals s in
  loadingFeeds (loadingState s')
  = loadingFeeds (loadingState s)
    ∖ list_to_set ((λ a, FeedConfig.title a.1.2) <$> arrivals)
  ∧ (loadedFeedsCount (loadingState s') + length (failedFeeds (loadingState s'))
     = loadedFeedsCount (loadingState s) + length (failedFeeds (loadingState s))
       + length arrivals)%nat
  ∧ loading (rssData s') = loading (rssData s).
Proof.
  unfold settleAll. revert s.
  induction arrivals as [|a arrivals IH]; intros s; simpl.
  - split; [set_solver|]. split; [lia | done].
  - destruct (IH (fetchSettled c a.1.1 a.1.2 a.2 s)) as (-> & -> & ->).
    destruct (fetchSettled_loading c a.1.1 a.1.2 a.2 s) as (-> & -> & ->).
    split; [set_solver|]. split; [lia | done].
Qed.

Lemma fetchSettled_feedsOf c category fc fetched s :
  NoDup (RSSItem.link <$> Cache.feedsOf (feedsByCategory (rssData s)) c) →
  Cache.feedsOf
    (feedsByCategory (rssData (fetchSettled c category fc fetched s))) c
  = Cache.uniqueFeeds ∅
      (Cache.feedsOf (feedsByCategory (rssData s)) c
       ++ PageView.resultOf (category, fc, fetched)).
Proof.
  intros Hnd. unfold fetchSettled, PageView.resultOf. simpl.
  destruct (withCategoryAndFeedName _ _ <$> default [] fetched) eqn:Hres; simpl.
  - rewrite (right_id_L [] (++)). symmetry. apply uniqueFeeds_id; [done|].
    intros ? _. apply not_elem_of_empty.
  - apply feedsOf_addFeedsToCategory.
Qed.

Lemma settleAll_feedsOf c arrivals s :
  NoDup (RSSItem.link <$> Cache.feedsOf (feedsByCategory (rssData s)) c) →
  Cache.feedsOf (feedsByCategory (rssData (settleAll c arrivals s))) c
  = Cache.uniqueFeeds ∅
      (Cache.feedsOf (feedsByCategory (rssData s)) c
       ++ concat (PageView.resultOf <$> arrivals)).
Proof.
  unfold settleAll. revert s.
  induction arrivals as [|a arrivals IH]; intros s Hnd.
  - simpl. rewrite (right_id_L [] (++)). symmetry. apply uniqueFeeds_id; [done|].
    intros ? _. apply not_elem_of_empty.
  - destruct a as [[category fc] fetched]. rewrite fmap_cons.
    cbn [fold_left concat fst snd].
    rewrite IH.
    + rewrite fetchSettled_feedsOf by done.
      rewrite uniqueFeeds_again. by rewrite (assoc_L (++)).
    + rewrite fetchSettled_feedsOf by done. apply uniqueFeeds_NoDup.
Qed.

End page_loading.

(** X7. [loadFeedsForCategory] does nothing for the custom category and
    nothing while the configuration is not in; for an id that no category
    has it empties the cached list of that id, resets the loading state
    and sets the error to '分类不存在' without marking any feed as loading;
    and for a category it goes on to load it clears the error, empties
    the cached list and marks exactly the feed configs of the category
    as loading, none yet as loaded or as failed. *)
Theorem loadFeedsForCategory_cases (categoryId : jstring) (s : Page.state) :
  (categoryId = js "custom" → Page.loadFeedsForCategory categoryId s = s)
  ∧ (Page.rssConfig (Page.rssData s) = None →
     Page.loadFeedsForCategory categoryId s = s)
  ∧ (∀ feeds,
       categoryId ≠ js "custom" →
       Page.rssConfig (Page.rssData s) = Some feeds →
       list_find (λ c, RSSCategory.id c = categoryId)
                 (Page.categories (Page.rssData s)) = None →
       let s' := Page.loadFeedsForCategory categoryId s in
       Page.error (Page.rssData s') = Some Page.noSuchCategory
       ∧ Page.loadingState s' = Page.mkLoadingState ∅ [] 0
       ∧ Page.feedsByCategory (Page.rssData s')
         = <[categoryId := []]> (Page.feedsByCategory (Page.rssData s)))
  ∧ (∀ feeds,
       PageView.loadable categoryId feeds s →
       let s' := Page.loadFeedsForCategory categoryId s in
       Page.error (Page.rssData s') = None
       ∧ Page.loadingFeeds (Page.loadingState s')
         = list_to_set (Page.FeedConfig.title
                        <$> Page.feedConfigsOf feeds categoryId)
       ∧ Page.failedFeeds (Page.loadingState s') = []
       ∧ Page.loadedFeedsCount (Page.loadingState s') = 0%nat
       ∧ Page.feedsByCategory (Page.rssData s')
         = <[categoryId := []]> (Page.feedsByCategory (Page.rssData s))).
Proof.
  split; [|split; [|split]].
  - intros ->. unfold Page.loadFeedsForCategory. by rewrite decide_True.
  - intros Hcfg. unfold Page.loadFeedsForCategory. rewrite Hcfg.
    by case_decide.
  - intros feeds Hc Hcfg Hfind. unfold Page.loadFeedsForCategory.
    rewrite decide_False by done. by rewrite Hcfg, Hfind.
  - intros feeds Hload.
    destruct (loadFeedsForCategory_launched categoryId feeds s Hload)
      as (? & ? & ? & ? & ?).
    done.
Qed.

(** X8. Once every request sent by a load of a category has been
    answered, in whatever order, no feed is marked as loading any more,
    and every feed config of the category has been counted exactly once,
    as loaded or as failed; the cached list of the category then holds
    the items of the responses in the order they came in, the first of
    each link. *)
Theorem load_settles (categoryId : jstring) (feeds : list Page.FeedConfig.t)
    (s : Page.state)
    (arrivals : list (RSSCategory.t * Page.FeedConfig.t * option (list RSSItem.t))) :
  PageView.loadable categoryId feeds s →
  (λ a, a.1.2) <$> arrivals ≡ₚ Page.feedConfigsOf feeds categoryId →
  let s' := Page.settleAll categoryId arrivals
              (Page.loadFeedsForCategory categoryId s) in
  Page.loadingFeeds (Page.loadingState s') = ∅
  ∧ PageView.isLoading s' = Page.loading (Page.rssData s)
  ∧ (Page.loadedFeedsCount (Page.loadingState s')
     + length (Page.failedFeeds (Page.loadingState s'))
     = length (Page.feedConfigsOf feeds categoryId))%nat
  ∧ Cache.feedsOf (Page.feedsByCategory (Page.rssData s')) categoryId
    = Cache.uniqueFeeds ∅ (concat (PageView.resultOf <$> arrivals)).
Proof.
  intros Hload Hperm s'.
  destruct (loadFeedsForCategory_launched categoryId feeds s Hload)
    as (Hl & Hf & Hc & _ & Hcache).
  destruct (settleAll_loading categoryId arrivals
              (Page.loadFeedsForCategory categoryId s)) as (Hl' & Hn & Hld).
  fold s' in Hl', Hn, Hld.
  assert (Hempty : Page.loadingFeeds (Page.loadingState s') = ∅).
  { rewrite Hl', Hl.
    assert (Page.FeedConfig.title <$> Page.feedConfigsOf feeds categoryId
            ≡ₚ (λ a, Page.FeedConfig.title a.1.2) <$> arrivals) as ->.
    { rewrite <- Hperm, <- list_fmap_compose. done. }
    set_solver. }
  split; [done|]. split; [|split].
  - unfold PageView.isLoading. rewrite Hempty, Hld.
    rewrite size_empty, bool_decide_eq_true_2 by done. simpl.
    rewrite orb_false_r.
    destruct Hload as (Hc' & Hcfg & [p Hfind]).
    unfold Page.loadFeedsForCategory. rewrite decide_False by done.
    rewrite Hcfg, Hfind.
    destruct (batchLoop_from (Page.feedConfigsOf feeds categoryId) 0)
      as (batches & -> & _ & _).
    by destruct (fold_perform_paused batches
              (Page.resetLoadingState
                 (Page.clearCategoryFeeds categoryId (Page.setError None s))))
      as (-> & _).
  - rewrite Hn, Hf, Hc. simpl. rewrite <- Hperm. by rewrite length_fmap.
  - unfold s'. rewrite settleAll_feedsOf.
    + rewrite Hcache. unfold Cache.feedsOf. by rewrite lookup_insert_eq.
    + rewrite Hcache. unfold Cache.feedsOf. rewrite lookup_insert_eq.
      constructor.
Qed.

Lemma loadFeedsForCategory_cases_witness :
  let s := Page.handle (Page.ConfigArrived (inr Scene.pageFeeds)) Page.init in
  Page.loadFeedsForCategory (js "custom") s = s
  ∧ Page.loadFeedsForCategory (js "tech") Page.init = Page.init
  ∧ Page.error (Page.rssData (Page.loadFeedsForCategory (js "sport") s))
    = Some Page.noSuchCategory
  ∧ Page.loadingFeeds (Page.loadingState (Page.loadFeedsForCategory (js "tech") s))
    = list_to_set (Page.FeedConfig.title
                   <$> Page.feedConfigsOf Scene.pageFeeds (js "tech")).
Proof.
  intros s. split; [|split; [|split]].
  - destruct (loadFeedsForCategory_cases (js "custom") s) as (H & _).
    by apply H.
  - destruct (loadFeedsForCategory_cases (js "tech") Page.init) as (_ & H & _).
    by apply H.
  - destruct (loadFeedsForCategory_cases (js "sport") s) as (_ & _ & H & _).
    by destruct (H Scene.pageFeeds) as (He & _).
  - destruct (loadFeedsForCategory_cases (js "tech") s) as (_ & _ & _ & H).
    destruct (H Scene.pageFeeds) as (_ & Hl & _); [|done].
    split; [done|]. split; [done|]. eexists. vm_compute. reflexivity.
Defined.

Lemma load_settles_witness :
  let s := Page.handle (Page.ConfigArrived (inr Scene.pageFeeds)) Page.init in
  let arrivals := [(Cache.tech, Scene.blog, Some [Cache.older; Cache.newer])] in
  let s' := Page.settleAll (js "tech") arrivals
              (Page.loadFeedsForCategory (js "tech") s) in
  Page.loadingFeeds (Page.loadingState s') = ∅
  ∧ PageView.isLoading s' = false
  ∧ (Page.loadedFeedsCount (Page.loadingState s')
     + length (Page.failedFeeds (Page.loadingState s')) = 1)%nat.
Proof.
  intros s arrivals s'.
  destruct (load_settles (js "tech") Scene.pageFeeds s arrivals)
    as (H1 & H2 & H3 & _).
  - split; [done|]. split; [done|]. eexists. vm_compute. reflexivity.
  - vm_compute. reflexivity.
  - done.
Defined.



(** ** Which sources a response expands *)

Section page_sources.
Import Page.

Lemma fetchSettled_expandedSources c category fc fetched s :
  expandedSources (fetchSettled c category fc fetched s)
  = match PageView.resultOf (category, fc, fetched) with
    | [] => expandedSources s
    | _ :: _ => {[FeedConfig.title fc]} ∪ expandedSources s
    end.
Proof.
  unfold fetchSettled, PageView.resultOf. simpl.
  by destruct (withCategoryAndFeedName _ _ <$> default [] fetched).
Qed.

Lemma fetchSettled_elem c category fc fetched s x :
  x ∈ Cache.feedsOf
        (feedsByCategory (rssData (fetchSettled c category fc fetched s))) c →
  x ∈ Cache.feedsOf (feedsByCategory (rssData s)) c
  ∨ x ∈ PageView.resultOf (category, fc, fetched).
Proof.
  unfold fetchSettled, PageView.resultOf. simpl.
  destruct (withCategoryAndFeedName _ _ <$> default [] fetched) eqn:Hres;
    simpl; [by left|].
  rewrite feedsOf_addFeedsToCategory.
  intros [_ Hin]%uniqueFeeds_links_fresh. by apply elem_of_app in Hin.
Qed.

Lemma resultOf_feedName category fc fetched x :
  x ∈ PageView.resultOf (category, fc, fetched) →
  RSSItem.feedName x = titleOrName fc ∧ RSSItem.category x = category.
Proof.
  unfold PageView.resultOf. simpl.
  intros (y & -> & _)%list_elem_of_fmap. done.
Qed.

End page_sources.

(** X9. Where every feed config asked for has a non-empty title, the
    responses keep the cached items of the category under expanded
    sources: if every cached item of the category is under an expanded
    source before, so is every one of them after any number of
    responses. *)
Theorem loaded_sources_expanded (categoryId : jstring) (s : Page.state)
    (arrivals : list (RSSCategory.t * Page.FeedConfig.t * option (list RSSItem.t))) :
  (∀ a, a ∈ arrivals → truthy (Page.FeedConfig.title a.1.2) = true) →
  (∀ x, x ∈ Cache.feedsOf (Page.feedsByCategory (Page.rssData s)) categoryId →
        Some (RSSItem.feedName x) ∈ Page.expandedSources s) →
  let s' := Page.settleAll categoryId arrivals s in
  ∀ x, x ∈ Cache.feedsOf (Page.feedsByCategory (Page.rssData s')) categoryId →
       Some (RSSItem.feedName x) ∈ Page.expandedSources s'.
Proof.
  unfold Page.settleAll. revert s.
  induction arrivals as [|[[category fc] fetched] arrivals IH];
    intros s Htitles Hinv; [done|].
  cbn [fold_left fst snd]. apply IH.
  - intros a Ha. apply Htitles. by right.
  - intros x Hx. rewrite fetchSettled_expandedSources.
    apply fetchSettled_elem in Hx as [Hold | Hnew].
    + apply Hinv in Hold.
      destruct (PageView.resultOf _); [done | set_solver].
    + destruct (resultOf_feedName _ _ _ _ Hnew) as [-> _].
      destruct (PageView.resultOf _) as [|y l]; [by apply elem_of_nil in Hnew|].
      assert (Ht : truthy (Page.FeedConfig.title fc) = true).
      { apply (Htitles (category, fc, fetched)). by left. }
      unfold Page.titleOrName. rewrite Ht.
      destruct (Page.FeedConfig.title fc) as [t|]; [|done]. simpl. set_solver.
Qed.

Lemma loaded_sources_expanded_witness :
  let s := Page.loadFeedsForCategory (js "tech")
             (Page.handle (Page.ConfigArrived (inr Scene.pageFeeds)) Page.init) in
  let s' := Page.settleAll (js "tech")
              [(Cache.tech, Scene.blog, Some [Cache.older; Cache.other])] s in
  Some (js "Blog") ∈ Page.expandedSources s'.
Proof.
  intros s s'.
  apply (loaded_sources_expanded (js "tech") s
           [(Cache.tech, Scene.blog, Some [Cache.older; Cache.other])]
           ltac:(by intros a ->%list_elem_of_singleton)
           ltac:(by intros x ?%elem_of_nil)
           (withCategoryAndFeedName Cache.tech (js "Blog") Cache.other)).
  vm_compute. right. left.
Defined.

(** X10. A response for a feed config without a title files its items
    under the name of the feed config, and adds [undefined] to the
    expanded sources, not that name: the source of the new items is
    expanded after the response only if it was before. *)
Theorem untitled_feed_not_expanded (categoryId : jstring)
    (category : RSSCategory.t) (feedConfig : Page.FeedConfig.t)
    (fetched : option (list RSSItem.t)) (s : Page.state) :
  Page.FeedConfig.title feedConfig = None →
  let s' := Page.fetchSettled categoryId category feedConfig fetched s in
  (∀ x, x ∈ Cache.feedsOf (Page.feedsByCategory (Page.rssData s')) categoryId →
        x ∈ Cache.feedsOf (Page.feedsByCategory (Page.rssData s)) categoryId
        ∨ RSSItem.feedName x = Page.FeedConfig.name feedConfig)
  ∧ (Some (Page.FeedConfig.name feedConfig) ∈ Page.expandedSources s'
     ↔ Some (Page.FeedConfig.name feedConfig) ∈ Page.expandedSources s)
  ∧ (PageView.resultOf (category, feedConfig, fetched) ≠ [] →
     None ∈ Page.expandedSources s').
Proof.
  intros Htitle s'. split; [|split].
  - intros x [Hold | Hnew]%fetchSettled_elem; [by left|]. right.
    destruct (resultOf_feedName _ _ _ _ Hnew) as [-> _].
    unfold Page.titleOrName. by rewrite Htitle.
  - unfold s'. rewrite fetchSettled_expandedSources, Htitle.
    destruct (PageView.resultOf _); [done | set_solver].
  - intros Hne. unfold s'. rewrite fetchSettled_expandedSources, Htitle.
    destruct (PageView.resultOf _); [done | set_solver].
Qed.

Lemma untitled_feed_not_expanded_witness :
  let fc := Page.FeedConfig.mk None (js "Lobsters")
              (js "https://lobste.example/rss") (js "Tech") in
  let s' := Page.fetchSettled (js "tech") Cache.tech fc (Some [Cache.older])
              Page.init in
  (Some (js "Lobsters") ∉ Page.expandedSources s')
  ∧ None ∈ Page.expandedSources s'.
Proof.
  intros fc s'.
  destruct (untitled_feed_not_expanded (js "tech") Cache.tech fc
              (Some [Cache.older]) Page.init eq_refl) as (_ & Hiff & Hnone).
  split.
  - intros Hin. apply (proj1 Hiff) in Hin. simpl in Hin.
    by apply elem_of_empty in Hin.
  - apply Hnone. done.
Defined.

(** ** The component of src/App.tsx *)

Lemma newerFirst_total : Total newerFirst.
Proof.
  intros a b. unfold newerFirst.
  destruct (RSSItem.pubDate a), (RSSItem.pubDate b); try (by left). lia.
Qed.

Lemma sortByTime_Sorted feeds : Sorted newerFirst (sortByTime feeds).
Proof. apply (@Sorted_merge_sort _ _ _ newerFirst_total). Qed.

Lemma sortByTime_Permutation feeds : sortByTime feeds ≡ₚ feeds.
Proof. apply merge_sort_Permutation. Qed.

(** Among items with valid dates the comparison is transitive, so that a
    list in which every item is at least as new as the next is in order
    throughout. *)
Lemma Sorted_valid_dates feeds :
  Forall (λ x, is_Some (RSSItem.pubDate x)) feeds →
  Sorted newerFirst feeds → StronglySorted newerFirst feeds.
Proof.
  induction feeds as [|a l IH]; intros Hvalid Hsorted; [constructor|].
  apply Forall_cons in Hvalid as [[ta Ha] Hvalid].
  apply Sorted_inv in Hsorted as [Hsorted Hhd].
  specialize (IH Hvalid Hsorted). constructor; [done|].
  destruct l as [|b l]; [constructor|].
  apply HdRel_inv in Hhd.
  apply StronglySorted_inv in IH as [_ Hb].
  apply Forall_cons in Hvalid as [[tb Hb'] Hvalid].
  constructor; [done|].
  rewrite Forall_forall in Hb, Hvalid |- *.
  intros x Hx. specialize (Hb x Hx). destruct (Hvalid x Hx) as [tx Htx].
  unfold newerFirst in *. rewrite Ha, Hb' in Hhd. rewrite Hb', Htx in Hb.
  rewrite Ha, Htx. lia.
Qed.

(** X11. For a category that is in [categories], with the configuration
    in, [loadFeedsForCategory] of src/App.tsx stores under the id of the
    category the items of all responses, each item once for each time it
    was sent (nothing is dropped by link), every item at least as new as
    the next; where every date is valid, every item is at least as new as
    every later one. The expanded sources are the feed names of the
    stored items, [loading] is off and [error] is cleared. *)
Theorem loadFeedsForCategory_sorted_permutation (net : App.network)
    (categoryId : jstring) (config : RSSConfig.t)
    (p : nat * RSSCategory.t) (s : App.state) :
  App.rssConfig s = Some config →
  list_find (λ c, RSSCategory.id c = categoryId) (App.categories s) = Some p →
  let s' := App.loadFeedsForCategory net categoryId s in
  let fetched :=
    concat ((λ f, default [] (App.fetchRSSFeed net f p.2))
            <$> feedConfigsOf config categoryId) in
  let stored := Cache.feedsOf (App.feedsByCategory s') categoryId in
  stored ≡ₚ fetched
  ∧ Sorted newerFirst stored
  ∧ (Forall (λ x, is_Some (RSSItem.pubDate x)) fetched →
     StronglySorted newerFirst stored)
  ∧ App.expandedSources s' = list_to_set (RSSItem.feedName <$> fetched)
  ∧ App.loading s' = false
  ∧ App.error s' = None
  ∧ (∀ k, k ≠ categoryId →
          App.feedsByCategory s' !! k = App.feedsByCategory s !! k).
Proof.
  intros Hcfg Hfind s' fetched stored.
  assert (Hstored : stored = sortByTime fetched).
  { unfold stored, s', App.loadFeedsForCategory. rewrite Hcfg. simpl.
    rewrite Hfind. destruct p as [i category]. simpl.
    unfold Cache.feedsOf. rewrite lookup_insert_eq. simpl.
    unfold fetched. by rewrite <- list_fmap_compose. }
  assert (Hexp : App.expandedSources s'
                 = list_to_set (RSSItem.feedName <$> sortByTime fetched)).
  { unfold s', App.loadFeedsForCategory. rewrite Hcfg. simpl.
    rewrite Hfind. destruct p as [i category]. simpl.
    unfold fetched. by rewrite <- list_fmap_compose. }
  split; [|split; [|split; [|split; [|split; [|split]]]]].
  - rewrite Hstored. apply sortByTime_Permutation.
  - rewrite Hstored. apply sortByTime_Sorted.
  - intros Hvalid. apply Sorted_valid_dates.
    + rewrite Hstored. by rewrite sortByTime_Permutation.
    + rewrite Hstored. apply sortByTime_Sorted.
  - rewrite Hexp. apply set_eq. intros x.
    rewrite !elem_of_list_to_set. by rewrite sortByTime_Permutation.
  - unfold s', App.loadFeedsForCategory. rewrite Hcfg. simpl.
    rewrite Hfind. by destruct p.
  - unfold s', App.loadFeedsForCategory. rewrite Hcfg. simpl.
    rewrite Hfind. by destruct p.
  - intros k Hk. unfold s', App.loadFeedsForCategory. rewrite Hcfg. simpl.
    rewrite Hfind. destruct p. simpl. by rewrite lookup_insert_ne.
Qed.

Lemma loadFeedsForCategory_sorted_permutation_witness :
  let s := App.handle (App.ConfigArrived (inr Scene.config)) App.init in
  let net : App.network := λ _, Some [Cache.older; Cache.newer] in
  RSSItem.pubDate
  <$> Cache.feedsOf (App.feedsByCategory (App.loadFeedsForCategory net (js "tech") s))
        (js "tech")
  = [Some 2000%Z; Some 1000%Z]
  ∧ StronglySorted newerFirst
      (Cache.feedsOf
         (App.feedsByCategory (App.loadFeedsForCategory net (js "tech") s))
         (js "tech")).
Proof.
  intros s net. split; [by vm_compute|].
  eapply (loadFeedsForCategory_sorted_permutation net (js "tech") Scene.config).
  - reflexivity.
  - vm_compute. reflexivity.
  - repeat constructor; by eexists.
Defined.

(** X12. In src/App.tsx a click on the category that was clicked last
    changes nothing, whatever the proxy would answer: a category that
    was loaded is not fetched again, also when nothing came in for it. *)
Theorem handleCategoryClick_twice (net1 net2 : App.network)
    (categoryId : option jstring) (s : App.state) :
  App.handleCategoryClick net2 categoryId
    (App.handleCategoryClick net1 categoryId s)
  = App.handleCategoryClick net1 categoryId s.
Proof.
  destruct s as [cache cats sel ld err exp cfg].
  destruct categoryId as [c|]; [|done].
  unfold App.handleCategoryClick. simpl.
  destruct (cache !! c) as [feeds|] eqn:Hc; simpl.
  - by rewrite Hc.
  - unfold App.loadFeedsForCategory. simpl.
    destruct cfg as [config|]; simpl.
    + destruct (list_find _ cats) as [[i category]|] eqn:Hfind; simpl.
      * by rewrite lookup_insert_eq.
      * rewrite Hc. simpl. by rewrite Hfind.
    + by rewrite Hc.
Qed.



(** ** Groups and expanded sources *)









(** ** The generated categories *)

Section category_cover.
Context {FC : Type} (categoryOf : FC → jstring).
Context (step : list (jstring * RSSCategory.t) * nat → FC
                → list (jstring * RSSCategory.t) * nat).
Hypothesis step_entries : ∀ acc f,
  (categoryOf f ∈ acc.1.*1 ∧ (step acc f).1 = acc.1)
  ∨ ((categoryOf f ∉ acc.1.*1)
     ∧ ∃ c, (step acc f).1 = acc.1 ++ [(categoryOf f, c)]
            ∧ RSSCategory.name c = categoryOf f
            ∧ RSSCategory.id c = categoryIdOf (categoryOf f)).

Lemma built_cover feeds :
  let categories := (fold_left step feeds ([], 0%nat)).1.*2 in
  (∀ f, f ∈ feeds →
        ∃ c, c ∈ categories ∧ RSSCategory.name c = categoryOf f
             ∧ RSSCategory.id c = categoryIdOf (categoryOf f))
  ∧ (∀ c, c ∈ categories →
          ∃ f, f ∈ feeds ∧ categoryOf f = RSSCategory.name c
               ∧ categoryIdOf (categoryOf f) = RSSCategory.id c)
  ∧ (length categories ≤ length feeds)%nat.
Proof.
  destruct (built_ok categoryOf step step_entries feeds) as (Hnd & Hent & Hall).
  set (m := (fold_left step feeds ([], 0%nat)).1) in *. cbv zeta.
  split; [|split].
  - intros f Hf. apply Hall, list_elem_of_fmap in Hf as ([k c] & Hk & Hkc).
    simpl in Hk. subst k. exists c.
    destruct (Hent _ _ Hkc) as (? & ? & _).
    split; [|done]. apply list_elem_of_fmap. by exists (categoryOf f, c).
  - intros c ([k c'] & -> & Hkc)%list_elem_of_fmap. simpl.
    destruct (Hent _ _ Hkc) as (Hname & Hid & f & Hf & Hcat).
    exists f. split; [done|]. by rewrite Hcat, Hname, Hid.
  - rewrite length_fmap, <- (length_fmap fst m), <- (length_fmap categoryOf feeds).
    apply submseteq_length, NoDup_submseteq; [done|].
    intros k ([k' c] & -> & Hkc)%list_elem_of_fmap. simpl.
    destruct (Hent _ _ Hkc) as (_ & _ & f & Hf & <-).
    apply list_elem_of_fmap. by exists f.
Qed.

End category_cover.


(** X15. The categories generated from the configuration cover it: every
    feed config has a category entry with its category name, and is among
    the feed configs selected by the id of that entry; every category
    entry selects at least one feed config; and there are at most as many
    categories as feed configs. So a load of the category of a feed
    config never ends with '分类不存在'. This holds for src/App.tsx and
    for [RSSPage]. *)
Theorem every_feed_has_a_category :
  (∀ config : RSSConfig.t,
     let categories := buildCategories config in
     (∀ f, f ∈ RSSConfig.feeds config →
           ∃ c, c ∈ categories
                ∧ RSSCategory.name c = RSSFeedConfig.category f
                ∧ f ∈ feedConfigsOf config (RSSCategory.id c))
     ∧ (∀ c, c ∈ categories → feedConfigsOf config (RSSCategory.id c) ≠ [])
     ∧ (length categories ≤ length (RSSConfig.feeds config))%nat
     ∧ (∀ f net s, f ∈ RSSConfig.feeds config →
          App.error
            (App.loadFeedsForCategory net
               (categoryIdOf (RSSFeedConfig.category f))
               (App.loadCategoriesAndConfig (inr config) s)) = None))
  ∧ (∀ feeds : list Page.FeedConfig.t,
     let categories := Page.buildCategories feeds in
     (∀ f, f ∈ feeds →
           ∃ c, c ∈ categories
                ∧ RSSCategory.name c = Page.FeedConfig.category f
                ∧ f ∈ Page.feedConfigsOf feeds (RSSCategory.id c))
     ∧ (∀ c, c ∈ categories → Page.feedConfigsOf feeds (RSSCategory.id c) ≠ [])
     ∧ (length categories ≤ length feeds)%nat
     ∧ (∀ f s, f ∈ feeds →
          categoryIdOf (Page.FeedConfig.category f) ≠ js "custom" →
          PageView.loadable (categoryIdOf (Page.FeedConfig.category f)) feeds
            (Page.loadCategoriesAndConfig (inr feeds) s))).
Proof.
  split.
  - intros config categories.
    destruct (built_cover RSSFeedConfig.category categoryStep
                categoryStep_entries (RSSConfig.feeds config))
      as (Hfeed & Hcat & Hlen).
    subst categories. fold (buildCategories config) in Hfeed, Hcat, Hlen.
    split; [|split; [|split]].
    + intros f Hf. destruct (Hfeed f Hf) as (c & Hc & Hname & Hid).
      exists c. split; [done|]. split; [done|].
      apply list_elem_of_filter. by rewrite Hid.
    + intros c Hc Hnil. destruct (Hcat c Hc) as (f & Hf & _ & Hid).
      assert (f ∈ feedConfigsOf config (RSSCategory.id c)) as Hin
        by (by apply list_elem_of_filter).
      rewrite Hnil in Hin. by apply elem_of_nil in Hin.
    + done.
    + intros f net s Hf. destruct (Hfeed f Hf) as (c & Hc & _ & Hid).
      unfold App.loadFeedsForCategory, App.loadCategoriesAndConfig. simpl.
      destruct (list_find_elem_of
                  (λ c', RSSCategory.id c' = categoryIdOf (RSSFeedConfig.category f))
                  (buildCategories config) c Hc Hid) as [[i c'] ->].
      done.
  - intros feeds categories.
    destruct (built_cover Page.FeedConfig.category Page.categoryStep
                page_categoryStep_entries feeds) as (Hfeed & Hcat & Hlen).
    subst categories. fold (Page.buildCategories feeds) in Hfeed, Hcat, Hlen.
    split; [|split; [|split]].
    + intros f Hf. destruct (Hfeed f Hf) as (c & Hc & Hname & Hid).
      exists c. split; [done|]. split; [done|].
      apply list_elem_of_filter. by rewrite Hid.
    + intros c Hc Hnil. destruct (Hcat c Hc) as (f & Hf & _ & Hid).
      assert (f ∈ Page.feedConfigsOf feeds (RSSCategory.id c)) as Hin
        by (by apply list_elem_of_filter).
      rewrite Hnil in Hin. by apply elem_of_nil in Hin.
    + done.
    + intros f s Hf Hcustom. destruct (Hfeed f Hf) as (c & Hc & _ & Hid).
      split; [done|]. split; [done|]. simpl.
      by apply (list_find_elem_of _ _ c).
Qed.

Lemma every_feed_has_a_category_witness :
  ∃ c, c ∈ buildCategories twoSpellings
       ∧ RSSCategory.name c = js "tech  news"
       ∧ length (feedConfigsOf twoSpellings (RSSCategory.id c)) = 2%nat.
Proof.
  destruct every_feed_has_a_category as [H _].
  destruct (H twoSpellings) as (Hfeed & _).
  destruct (Hfeed (RSSFeedConfig.mk (js "Lobsters")
                     (js "https://lobste.example/rss") (js "tech  news")
                     (js "more links")))
    as (c & Hc & Hname & Hin).
  - right. left.
  - exists c. split; [done|]. split; [done|].
    apply list_elem_of_filter in Hin as [Hid _]. rewrite <- Hid.
    by vm_compute.
Defined.

(** ** Colours *)

Lemma colorAt_inj i j :
  colorAt i = colorAt j ↔ (i mod 12 = j mod 12)%nat.
Proof.
  unfold colorAt. change (length categoryColors) with 12%nat.
  split; [|by intros ->].
  assert (Hi : (i mod 12 < 12)%nat) by (apply Nat.mod_upper_bound; lia).
  assert (Hj : (j mod 12 < 12)%nat) by (apply Nat.mod_upper_bound; lia).
  revert Hi Hj. generalize (i mod 12)%nat (j mod 12)%nat. intros a b Ha Hb.
  do 12 (destruct a as [|a]; [do 12 (destruct b as [|b]; [by vm_compute|]); lia|]).
  lia.
Qed.

Lemma fold_categoryStep_colors feeds acc :
  acc.2 = length acc.1 →
  (∀ i e, acc.1 !! i = Some e →
          RSSCategory.color e.2 = colorAt i ∧ RSSCategory.count e.2 = 0%nat) →
  let r := fold_left categoryStep feeds acc in
  r.2 = length r.1
  ∧ ∀ i e, r.1 !! i = Some e →
           RSSCategory.color e.2 = colorAt i ∧ RSSCategory.count e.2 = 0%nat.
Proof.
  revert acc. induction feeds as [|f feeds IH]; intros acc Hlen Hcol; [done|].
  cbn [fold_left]. apply IH.
  - unfold categoryStep. case_decide; [done|]. simpl.
    rewrite length_app. simpl. lia.
  - intros i e. unfold categoryStep. case_decide; [apply Hcol|]. simpl.
    intros [Hi | [Hi He]]%lookup_app_Some; [by apply Hcol|].
    destruct (i - length acc.1)%nat as [|n] eqn:Hn; [|done].
    simpl in He. injection He as <-. simpl.
    assert (i = acc.2) as -> by lia. done.
Qed.

(** X16. In src/App.tsx the colours go round the palette in the order in
    which the categories first appear in the configuration: the category
    at position [i] has the colour at position [i mod 12] of the palette
    and count 0, so that two categories have one colour exactly if their
    positions differ by a multiple of 12. *)
Theorem category_colors_round_robin (config : RSSConfig.t) :
  (∀ i c, buildCategories config !! i = Some c →
          RSSCategory.color c = colorAt i ∧ RSSCategory.count c = 0%nat)
  ∧ (∀ i j ci cj,
       buildCategories config !! i = Some ci →
       buildCategories config !! j = Some cj →
       (RSSCategory.color ci = RSSCategory.color cj
        ↔ (i mod 12 = j mod 12)%nat)).
Proof.
  assert (H : ∀ i c, buildCategories config !! i = Some c →
          RSSCategory.color c = colorAt i ∧ RSSCategory.count c = 0%nat).
  { intros i c. unfold buildCategories. rewrite list_lookup_fmap.
    destruct (fold_categoryStep_colors (RSSConfig.feeds config) ([], 0%nat))
      as [_ Hcol]; [done | by intros i' e' [=] |].
    destruct (_ !! i) as [e|] eqn:He; [|done]. simpl. intros [= <-].
    by apply Hcol. }
  split; [done|]. intros i j ci cj Hi Hj.
  destruct (H i ci Hi) as [-> _]. destruct (H j cj Hj) as [-> _].
  apply colorAt_inj.
Qed.

Lemma category_colors_round_robin_witness :
  ∃ c, buildCategories twoSpellings !! 1%nat = Some c
       ∧ RSSCategory.color c = js "#10B981".
Proof.
  eexists. split; [vm_compute; reflexivity|].
  destruct (category_colors_round_robin twoSpellings) as [H _].
  edestruct (H 1%nat) as [-> _]; [vm_compute; reflexivity|].
  by vm_compute.
Defined.

Section page_colors.
Import Page.

Lemma page_categoryStep_colored seen acc f :
  colored seen acc → colored (seen ++ [f]) (categoryStep acc f).
Proof.
  intros (Hlen & Hall & Hent). unfold colored, categoryStep.
  destruct (decide (FeedConfig.category f ∈ acc.1.*1)) as [Hin|Hout].
  - split; [|split]; simpl.
    + rewrite length_app. simpl. lia.
    + intros g [Hg | ->%list_elem_of_singleton]%elem_of_app; [by apply Hall|done].
    + intros k c Hkc. destruct (Hent k c Hkc) as (Hname & j & g & Hfind & Hc).
      split; [done|]. exists j, g. split; [|done].
      by apply list_find_app_l.
  - split; [|split]; simpl.
    + rewrite length_app. simpl. lia.
    + intros g Hg. rewrite fmap_app. apply elem_of_app.
      apply elem_of_app in Hg as [Hg | ->%list_elem_of_singleton].
      * left. by apply Hall.
      * right. by left.
    + intros k c [Hkc | Hnew%list_elem_of_singleton]%elem_of_app.
      * destruct (Hent k c Hkc) as (Hname & j & g & Hfind & Hc).
        split; [done|]. exists j, g. split; [|done].
        by apply list_find_app_l.
      * injection Hnew as -> ->. simpl. split; [done|].
        exists acc.2, f. split; [|done].
        rewrite list_find_app_r.
        -- simpl. rewrite decide_True by done. simpl. by rewrite Hlen.
        -- apply list_find_None, Forall_forall. intros g Hg Hcat.
           apply Hout. rewrite <- Hcat. by apply Hall.
Qed.

Lemma fold_page_categoryStep_colored feeds seen acc :
  colored seen acc → colored (seen ++ feeds) (fold_left categoryStep feeds acc).
Proof.
  revert seen acc. induction feeds as [|f feeds IH]; intros seen acc Hinv.
  - by rewrite (right_id_L [] (++)).
  - cbn [fold_left]. rewrite (cons_middle f), (assoc_L (++)).
    apply IH. by apply page_categoryStep_colored.
Qed.

Lemma page_buildCategories_colored feeds c :
  c ∈ buildCategories feeds →
  ∃ j f, list_find (λ f, FeedConfig.category f = RSSCategory.name c) feeds
         = Some (j, f)
         ∧ RSSCategory.color c = colorAt j
         ∧ RSSCategory.count c = 0%nat.
Proof.
  intros ([k c'] & -> & Hkc)%list_elem_of_fmap. simpl.
  destruct (fold_page_categoryStep_colored feeds [] ([], 0%nat))
    as (_ & _ & Hent).
  { split; [done|]. split; [by intros ? ?%elem_of_nil|].
    by intros ? ? ?%elem_of_nil. }
  destruct (Hent k c' Hkc) as (-> & Hrest). done.
Qed.

End page_colors.

(** X17. In [RSSPage] the colour of a category goes by the position in
    the configuration of the first feed config that has the category
    name, not by the position of the category among the categories: a
    category whose first feed config is at position [j] has the colour at
    position [j mod 12] of the palette, and count 0. *)
Theorem page_category_color_by_feed_position (feeds : list Page.FeedConfig.t)
    (c : RSSCategory.t) :
  c ∈ Page.buildCategories feeds →
  ∃ j f,
    list_find (λ f, Page.FeedConfig.category f = RSSCategory.name c) feeds
    = Some (j, f)
    ∧ RSSCategory.color c = colorAt j
    ∧ RSSCategory.count c = 0%nat.
Proof. apply page_buildCategories_colored. Qed.

Lemma page_category_color_by_feed_position_witness :
  let feeds :=
    [Page.FeedConfig.mk None (js "A") (js "https://a.example/rss") (js "Tech");
     Page.FeedConfig.mk None (js "B") (js "https://b.example/rss") (js "Tech");
     Page.FeedConfig.mk None (js "C") (js "https://c.example/rss") (js "World")] in
  ∃ c, Page.buildCategories feeds !! 1%nat = Some c
       ∧ RSSCategory.color c = colorAt 2.
Proof.
  intros feeds. eexists. split; [vm_compute; reflexivity|].
  edestruct (page_category_color_by_feed_position feeds)
    as (j & f & Hfind & -> & _).
  - right. left.
  - vm_compute in Hfind. by injection Hfind as <- _.
Defined.

(** ** More of [fetchRSSFeed] of [RSSPage] *)

Section fetch_more.
Import Js Page.

Lemma mapItems_lookup f index items result i it :
  mapItems f index items = Ret result → result !! i = Some it →
  ∃ item, items !! i = Some item ∧ f (index + i)%nat item = Ret it.
Proof.
  revert index result i. induction items as [|item items IH];
    intros index result i; simpl.
  - by intros [= <-].
  - intros (r & Hr & H)%bind_Ret.
    apply bind_Ret in H as (rs & Hrs & [= <-]).
    destruct i as [|i]; simpl.
    + intros [= <-]. exists item. by rewrite Nat.add_0_r.
    + intros Hi. destruct (IH _ _ _ Hrs Hi) as (item' & ? & Hf).
      exists item'. split; [done|]. by rewrite <- Nat.add_succ_comm.
Qed.

Lemma mapItems_Throw f index items i item :
  items !! i = Some item → f (index + i)%nat item = Throw →
  mapItems f index items = Throw.
Proof.
  revert index i. induction items as [|item' items IH]; intros index i;
    [done|].
  destruct i as [|i]; simpl.
  - intros [= ->]. rewrite Nat.add_0_r. by intros ->.
  - intros Hi Hf. destruct (f index item'); [|done]. simpl.
    rewrite (IH (S index) i); [done | done |].
    by rewrite Nat.add_succ_comm.
Qed.

Lemma normalizeItem_description now fc category feedTitle index item it :
  normalizeItem now fc category feedTitle index item = Ret it →
  ∃ html, Item.description it = stripHtml html.
Proof.
  unfold normalizeItem.
  intros (title & _ & H)%bind_Ret.
  apply bind_Ret in H as (description & _ & H).
  apply bind_Ret in H as (link & _ & H).
  apply bind_Ret in H as (pubDate & _ & H).
  apply bind_Ret in H as (author & _ & H).
  apply bind_Ret in H as (title' & _ & H).
  apply bind_Ret in H as (text & _ & H).
  apply bind_Ret in H as (description' & Hstrip & H).
  apply bind_Ret in H as (link' & _ & H).
  apply bind_Ret in H as (source & _ & H).
  apply bind_Ret in H as (author' & _ & [= <-]). simpl.
  unfold stripHtmlValue in Hstrip.
  destruct text as [| | | |s| | |];
    try (destruct (toBoolean _); [done|]; injection Hstrip as <-;
         by exists None).
  injection Hstrip as <-. by exists (Some s).
Qed.

Lemma fetchRSSFeed_found now data fc category items feedTitle :
  findItems data = Ret (VArray items, feedTitle) →
  fetchRSSFeed now (Some data) fc category
  = match items with
    | [] => None
    | _ :: _ =>
        match mapItems (normalizeItem now fc category feedTitle) 0 items with
        | Ret result => Some result
        | Throw => None
        end
    end.
Proof.
  intros Hfound. unfold fetchRSSFeed, fetchBody. rewrite Hfound.
  cbn -[mapItems normalizeItem]. destruct items as [|item rest]; [done|].
  by destruct (mapItems _ 0 (item :: rest)).
Qed.

End fetch_more.

(** X18. [fetchRSSFeed] of [RSSPage] is all or nothing. Where the
    response holds the array [items], a result that is not [null] has
    one item for each of [items], in their order, the one at position
    [i] made from the item at position [i] and numbered [i], so that the
    ids of one result are pairwise distinct. If the callback throws for
    one item, as it does for an item that is [null] or [undefined], the
    whole result is [null]. *)
Theorem fetchRSSFeed_all_or_nothing (now : Z) (data : Js.value)
    (feedConfig : Page.FeedConfig.t) (category : RSSCategory.t)
    (items : list Js.value) (feedTitle : Js.value) :
  Page.findItems data = Js.Ret (Js.VArray items, feedTitle) →
  (∀ result,
     Page.fetchRSSFeed now (Some data) feedConfig category = Some result →
     length result = length items
     ∧ (∀ i it, result !! i = Some it →
          ∃ item, items !! i = Some item
                  ∧ Page.normalizeItem now feedConfig category feedTitle i item
                    = Js.Ret it
                  ∧ Page.Item.id it = (Page.titleOrName feedConfig, now, i))
     ∧ NoDup (Page.Item.id <$> result))
  ∧ (∀ i item,
       items !! i = Some item →
       Page.normalizeItem now feedConfig category feedTitle i item = Js.Throw →
       Page.fetchRSSFeed now (Some data) feedConfig category = None)
  ∧ (Js.VNull ∈ items ∨ Js.VUndefined ∈ items →
     Page.fetchRSSFeed now (Some data) feedConfig category = None).
Proof.
  intros Hfound. rewrite (fetchRSSFeed_found _ _ _ _ _ _ Hfound).
  assert (Hthrow : ∀ i item,
       items !! i = Some item →
       Page.normalizeItem now feedConfig category feedTitle i item = Js.Throw →
       match items with
       | [] => None
       | _ :: _ =>
           match Page.mapItems
                   (Page.normalizeItem now feedConfig category feedTitle) 0 items
           with
           | Js.Ret result => Some result
           | Js.Throw => None
           end
       end = None).
  { intros i item Hi Hf. destruct items as [|item0 rest]; [done|].
    by rewrite (mapItems_Throw _ 0 _ i item Hi Hf). }
  split; [|split; [done|]].
  - intros result Hres. destruct items as [|item0 rest]; [done|].
    destruct (Page.mapItems _ 0 (item0 :: rest)) as [r|] eqn:Hmap; [|done].
    injection Hres as ->.
    assert (Hpos : ∀ i it, result !! i = Some it →
          ∃ item, (item0 :: rest) !! i = Some item
                  ∧ Page.normalizeItem now feedConfig category feedTitle i item
                    = Js.Ret it
                  ∧ Page.Item.id it = (Page.titleOrName feedConfig, now, i)).
    { intros i it Hi.
      destruct (mapItems_lookup _ _ _ _ _ _ Hmap Hi) as (item & Hitem & Hf).
      exists item. split; [done|]. split; [done|].
      by apply normalizeItem_fields in Hf as (_ & _ & _ & _ & ?). }
    split; [by apply mapItems_length in Hmap|]. split; [done|].
    apply NoDup_alt. intros i j x Hi Hj.
    rewrite list_lookup_fmap in Hi, Hj.
    destruct (result !! i) as [a|] eqn:Ha; [|done].
    destruct (result !! j) as [b|] eqn:Hb; [|done].
    destruct (Hpos i a Ha) as (_ & _ & _ & Hida).
    destruct (Hpos j b Hb) as (_ & _ & _ & Hidb).
    simpl in Hi, Hj. congruence.
  - intros [Hin | Hin]; apply list_elem_of_lookup_1 in Hin as [i Hi];
      by apply (Hthrow i _ Hi).
Qed.

Lemma fetchRSSFeed_all_or_nothing_witness :
  (∃ result,
     Page.fetchRSSFeed 1700 (Some Scene.rss2json) Scene.blog Cache.tech
     = Some result
     ∧ length result = 2%nat
     ∧ NoDup (Page.Item.id <$> result))
  ∧ Page.fetchRSSFeed 1700
      (Some (Js.VArray [Js.VString (js "abc"); Js.VNull])) Scene.blog Cache.tech
    = None.
Proof.
  split.
  - eexists. split; [vm_compute; reflexivity|].
    edestruct (fetchRSSFeed_all_or_nothing 1700 Scene.rss2json Scene.blog
                 Cache.tech) as ((Hlen & _ & Hnd) & _).
    + vm_compute. reflexivity.
    + vm_compute. reflexivity.
    + split; [exact Hlen | exact Hnd].
  - eapply (fetchRSSFeed_all_or_nothing 1700
              (Js.VArray [Js.VString (js "abc"); Js.VNull])).
    + vm_compute. reflexivity.
    + left. right. left.
Defined.

(** X19. Every description in a result of [fetchRSSFeed] of [RSSPage]
    has gone through [stripHtml]: it holds no complete tag and neither
    begins nor ends with white space, whatever the response. *)
Theorem fetched_descriptions_are_plain (now : Z) (response : option Js.value)
    (feedConfig : Page.FeedConfig.t) (category : RSSCategory.t)
    (result : list Page.Item.t) (it : Page.Item.t) :
  Page.fetchRSSFeed now response feedConfig category = Some result →
  it ∈ result →
  ¬ hasCompleteTag (Page.Item.description it)
  ∧ (∀ c, head (Page.Item.description it) = Some c → JsString.is_ws c = false)
  ∧ (∀ c, last (Page.Item.description it) = Some c → JsString.is_ws c = false).
Proof.
  unfold Page.fetchRSSFeed, Page.fetchBody.
  destruct response as [data|]; [|done].
  destruct (Page.findItems data) as [[items feedTitle]|]; [|done].
  cbn -[Page.mapItems Page.normalizeItem].
  destruct items as [| | | | |[|item rest]| |]; try done.
  destruct (Page.mapItems _ 0 (item :: rest)) as [r|] eqn:Hmap; [|done].
  cbn -[Page.mapItems Page.normalizeItem]. intros [= <-] Hin.
  destruct (mapItems_elem _ _ _ _ _ Hmap Hin) as (i & raw & Hit).
  apply normalizeItem_description in Hit as [html ->].
  split; [apply stripHtml_no_tag|].
  unfold stripHtml. destruct (truthy html); [|done].
  split; [apply trim_head | apply trim_last].
Qed.

Lemma fetched_descriptions_are_plain_witness :
  ∃ it result,
    Page.fetchRSSFeed 1700 (Some Scene.rss2json) Scene.blog Cache.tech
    = Some result
    ∧ result !! 0%nat = Some it
    ∧ Page.Item.description it = js "Hi there"
    ∧ ¬ hasCompleteTag (Page.Item.description it).
Proof.
  eexists _, _. split; [vm_compute; reflexivity|].
  split; [reflexivity|]. split; [by vm_compute|].
  eapply (fetched_descriptions_are_plain 1700 (Some Scene.rss2json)
            Scene.blog Cache.tech).
  - vm_compute. reflexivity.
  - left.
Defined.

(** ** A feed added by hand *)

(** X20. [handleAddCustomFeed] with a blank address only sets the error
    '请输入有效的RSS地址'. With an address, it ends with
    [isAddingCustomFeed] off and leaves the lists of all categories but
    'custom' and the feeds marked as loading or failed as they are; if
    nothing came in, the error is '无法获取RSS内容，请检查URL是否正确'
    and cache, selection and expanded sources are as before; if items
    came in, they are merged by link into the list of 'custom', each
    filed under the source '自定义RSS源', which is expanded, the loaded
    count goes up by one, the error is cleared and 'custom' is
    selected. *)
Theorem handleAddCustomFeed_cases (fetched : option (list RSSItem.t))
    (s : Page.state) :
  (JsString.trim (Page.customRssUrl s) = [] →
   Page.handleAddCustomFeed fetched s = Page.setError (Some Page.enterAddress) s)
  ∧ (JsString.trim (Page.customRssUrl s) ≠ [] →
     let s' := Page.handleAddCustomFeed fetched s in
     let result := withCategoryAndFeedName Page.customCategory Page.customTitle
                   <$> default [] fetched in
     Page.isAddingCustomFeed s' = false
     ∧ (∀ k, k ≠ js "custom" →
             Page.feedsByCategory (Page.rssData s') !! k
             = Page.feedsByCategory (Page.rssData s) !! k)
     ∧ Page.loadingFeeds (Page.loadingState s')
       = Page.loadingFeeds (Page.loadingState s)
     ∧ Page.failedFeeds (Page.loadingState s')
       = Page.failedFeeds (Page.loadingState s)
     ∧ (default [] fetched = [] →
        Page.error (Page.rssData s') = Some Page.cannotFetch
        ∧ Page.feedsByCategory (Page.rssData s')
          = Page.feedsByCategory (Page.rssData s)
        ∧ Page.selectedCategory s' = Page.selectedCategory s
        ∧ Page.expandedSources s' = Page.expandedSources s)
     ∧ (default [] fetched ≠ [] →
        Page.error (Page.rssData s') = None
        ∧ Page.selectedCategory s' = Some (js "custom")
        ∧ Page.expandedSources s'
          = {[Some Page.customTitle]} ∪ Page.expandedSources s
        ∧ Page.loadedFeedsCount (Page.loadingState s')
          = S (Page.loadedFeedsCount (Page.loadingState s))
        ∧ Cache.feedsOf (Page.feedsByCategory (Page.rssData s')) (js "custom")
          = Cache.uniqueFeeds ∅
              (Cache.feedsOf (Page.feedsByCategory (Page.rssData s))
                             (js "custom") ++ result)
        ∧ ∀ x, x ∈ result →
               RSSItem.feedName x = Page.customTitle
               ∧ RSSItem.category x = Page.customCategory)).
Proof.
  unfold Page.handleAddCustomFeed. split.
  - by intros ->.
  - intros Hurl. destruct (JsString.trim (Page.customRssUrl s)) as [|u url];
      [done|]. clear Hurl.
    destruct (default [] fetched) as [|x l] eqn:Hf.
    + simpl. repeat split; done.
    + cbn [fmap list_fmap]. cbv zeta.
      set (result := withCategoryAndFeedName Page.customCategory
                       Page.customTitle x
                     :: list_fmap _ _ (withCategoryAndFeedName
                          Page.customCategory Page.customTitle) l).
      simpl. split; [done|]. split.
      { intros k Hk. unfold Cache.addFeedsToCategory.
        by rewrite lookup_insert_ne. }
      split; [done|]. split; [done|]. split; [done|].
      intros _. split; [done|]. split; [done|]. split; [done|].
      split; [lia|]. split.
      { apply feedsOf_addFeedsToCategory. }
      intros y [-> | Hy]%elem_of_cons; [done|].
      by apply list_elem_of_fmap in Hy as (z & -> & _).
Qed.

Lemma handleAddCustomFeed_cases_witness :
  let s := Page.handle (Page.UrlTyped (js " https://custom.example/rss "))
             Page.init in
  Page.handleAddCustomFeed None Page.init
  = Page.setError (Some Page.enterAddress) Page.init
  ∧ Page.selectedCategory (Page.handleAddCustomFeed (Some [Scene.abroad]) s)
    = Some (js "custom")
  ∧ Page.error (Page.rssData (Page.handleAddCustomFeed None s))
    = Some Page.cannotFetch.
Proof.
  intros s. split; [|split].
  - destruct (handleAddCustomFeed_cases None Page.init) as [H _].
    by apply H.
  - destruct (handleAddCustomFeed_cases (Some [Scene.abroad]) s) as [_ H].
    destruct H as (_ & _ & _ & _ & _ & H); [by vm_compute|].
    by destruct H as (_ & ? & _).
  - destruct (handleAddCustomFeed_cases None s) as [_ H].
    destruct H as (_ & _ & _ & _ & H & _); [by vm_compute|].
    by destruct H as (? & _).
Defined.

(** X21. The feeds added by hand outlive the load of any other category:
    the load and the responses to it leave the list of 'custom' as it
    is. A refresh does not: with 'custom' selected it empties the whole
    cache and the loading state and sends no request, so that nothing is
    shown, although the address is still entered and 'custom' still
    selected. *)
Theorem custom_feeds_and_refresh (s : Page.state) :
  (∀ c arrivals,
     c ≠ js "custom" →
     Cache.feedsOf
       (Page.feedsByCategory
          (Page.rssData (Page.settleAll c arrivals (Page.loadFeedsForCategory c s))))
       (js "custom")
     = Cache.feedsOf (Page.feedsByCategory (Page.rssData s)) (js "custom"))
  ∧ (Page.selectedCategory s = Some (js "custom") →
     let s' := Page.handleRefresh s in
     Page.feedsByCategory (Page.rssData s') = ∅
     ∧ Page.loadingState s' = Page.mkLoadingState ∅ [] 0
     ∧ Page.currentFeeds (Page.selectedCategory s')
         (Page.feedsByCategory (Page.rssData s')) = []
     ∧ Page.selectedCategory s' = Some (js "custom")
     ∧ Page.customRssUrl s' = Page.customRssUrl s).
Proof.
  split.
  - intros c arrivals Hc. unfold Cache.feedsOf.
    rewrite settleAll_other_keys by done.
    destruct (loadFeedsForCategory_cache c s) as [-> | ->]; [done|].
    by rewrite lookup_insert_ne.
  - intros Hsel. unfold Page.handleRefresh. rewrite Hsel.
    change (truthy (Some (js "custom"))) with true. cbv iota.
    unfold Page.loadFeedsForCategory. rewrite decide_True by done.
    simpl. rewrite Hsel. repeat split; try done.
Qed.

Lemma custom_feeds_and_refresh_witness :
  Cache.feedsOf (Page.feedsByCategory (Page.rssData Scene.pageWithCustom))
    (js "custom") ≠ []
  ∧ Page.feedsByCategory (Page.rssData
      (Page.handleRefresh
         (Page.handleCategoryClick (js "custom") Scene.pageWithCustom))) = ∅.
Proof.
  split; [by vm_compute|].
  destruct (custom_feeds_and_refresh
              (Page.handleCategoryClick (js "custom") Scene.pageWithCustom))
    as [_ H].
  by destruct H as (? & _).
Defined.

(** ** The older component *)

Section old_app.
Import OldApp.






End old_app.

(** ** Counting *)

Section counting.
Context {A B : Type} (P : A → B → Prop) `{!∀ a b, Decision (P a b)}.







End counting.







(** ** What holds of every reachable state *)

Section app_invariants.
Import App.

Lemma loadFeedsForCategory_inOrder net c s :
  inOrder (feedsByCategory s) →
  inOrder (feedsByCategory (loadFeedsForCategory net c s)).
Proof.
  intros Hs. unfold loadFeedsForCategory.
  destruct (rssConfig s) as [config|]; [|done].
  destruct (list_find _ (categories s)) as [[i category]|]; simpl; [|done].
  intros k l. destruct (decide (k = c)) as [->|Hk].
  - rewrite lookup_insert_eq. intros [= <-]. apply sortByTime_Sorted.
  - rewrite lookup_insert_ne by done. apply Hs.
Qed.

Lemma handle_inOrder e s :
  inOrder (feedsByCategory s) → inOrder (feedsByCategory (handle e s)).
Proof.
  intros Hs. destruct e as [fetched|net c|net|n|]; simpl.
  - by destruct fetched.
  - unfold handleCategoryClick. destruct c as [c|]; [|done].
    destruct (feedsByCategory s !! c); [done|].
    by apply loadFeedsForCategory_inOrder.
  - unfold handleRefresh. destruct (selectedCategory s) as [[|u c]|]; simpl.
    + by intros k l ?.
    + apply loadFeedsForCategory_inOrder. by intros k l ?.
    + by intros k l ?.
  - done.
  - unfold toggleAllSources. by case_decide.
Qed.

Lemma handle_configured e s :
  configured buildCategories (rssConfig s) (categories s) →
  configured buildCategories (rssConfig (handle e s)) (categories (handle e s)).
Proof.
  intros Hs. destruct e as [fetched|net c|net|n|]; simpl.
  - by destruct fetched.
  - unfold handleCategoryClick. destruct c as [c|]; [|done].
    destruct (feedsByCategory s !! c); [done|].
    destruct (loadFeedsForCategory_frame net c (setSelectedCategory (Some c) s))
      as (-> & _ & -> & _).
    done.
  - unfold handleRefresh. destruct (selectedCategory s) as [[|u c]|]; simpl;
      try done.
    destruct (loadFeedsForCategory_frame net (u :: c)
                (setFeedsByCategory (λ _, ∅) s)) as (-> & _ & -> & _).
    done.
  - done.
  - unfold toggleAllSources. by case_decide.
Qed.

Lemma reachable_configured s :
  reachable s → configured buildCategories (rssConfig s) (categories s).
Proof.
  induction 1 as [|e s _ IH]; [done|]. by apply handle_configured.
Qed.

Lemma handle_no_config e s :
  rssConfig (handle e s) = None → rssConfig s = None.
Proof.
  destruct e as [fetched|net c|net|n|]; simpl.
  - by destruct fetched.
  - unfold handleCategoryClick. destruct c as [c|]; [|done].
    destruct (feedsByCategory s !! c); [done|].
    by destruct (loadFeedsForCategory_frame net c (setSelectedCategory (Some c) s))
      as (_ & _ & -> & _).
  - unfold handleRefresh. destruct (selectedCategory s) as [[|u c]|]; simpl;
      try done.
    by destruct (loadFeedsForCategory_frame net (u :: c)
                (setFeedsByCategory (λ _, ∅) s)) as (_ & _ & -> & _).
  - done.
  - unfold toggleAllSources. by case_decide.
Qed.

Lemma handle_no_config_cache e s :
  rssConfig s = None → feedsByCategory s = ∅ →
  feedsByCategory (handle e s) = ∅.
Proof.
  intros Hcfg Hcache. destruct e as [fetched|net c|net|n|]; simpl.
  - by destruct fetched.
  - unfold handleCategoryClick. destruct c as [c|]; [|done].
    destruct (feedsByCategory s !! c); [done|].
    unfold loadFeedsForCategory. simpl. by rewrite Hcfg.
  - unfold handleRefresh. destruct (selectedCategory s) as [[|u c]|]; simpl;
      try done.
    unfold loadFeedsForCategory. simpl. by rewrite Hcfg.
  - done.
  - unfold toggleAllSources. by case_decide.
Qed.

Lemma reachable_no_config s :
  reachable s → rssConfig s = None → feedsByCategory s = ∅.
Proof.
  induction 1 as [|e s _ IH]; [done|]. intros Hcfg.
  apply handle_no_config in Hcfg.
  apply handle_no_config_cache; [done|]. by apply IH.
Qed.

End app_invariants.

Section page_invariants.
Import Page.



End page_invariants.

(** X25. In src/App.tsx every cached list of every reachable state is in
    order of time: each item is at least as new as the next one, and
    where all dates of the list are valid, as every later one. *)
Theorem cache_in_order (s : App.state) (k : jstring) (l : list RSSItem.t) :
  App.reachable s →
  App.feedsByCategory s !! k = Some l →
  Sorted newerFirst l
  ∧ (Forall (λ x, is_Some (RSSItem.pubDate x)) l → StronglySorted newerFirst l).
Proof.
  intros Hreach Hl.
  assert (Hin : inOrder (App.feedsByCategory s)).
  { clear Hl. induction Hreach as [|e s _ IH]; [by intros ? ? ?|].
    by apply handle_inOrder. }
  split; [by eapply Hin|]. intros Hvalid.
  apply Sorted_valid_dates; [done | by eapply Hin].
Qed.

Lemma cache_in_order_witness :
  let s := App.handle (App.CategoryClick
                         (λ _, Some [Cache.older; Cache.other; Cache.newer])
                         (Some (js "tech")))
             (App.handle (App.ConfigArrived (inr Scene.config)) App.init) in
  RSSItem.pubDate <$> Cache.feedsOf (App.feedsByCategory s) (js "tech")
  = [Some 2000%Z; Some 1500%Z; Some 1000%Z]
  ∧ Sorted newerFirst (Cache.feedsOf (App.feedsByCategory s) (js "tech")).
Proof.
  intros s. split; [by vm_compute|].
  eapply (cache_in_order s (js "tech")).
  - unfold s. do 2 apply App.reach_step. apply App.reach_init.
  - vm_compute. reflexivity.
Defined.



(** X27. In src/App.tsx, as long as no configuration is held, nothing is
    cached, no category is listed, a click on a category only records
    the selection and a refresh changes nothing: no request is sent,
    and an error message stays. *)
Theorem no_config_no_fetch (s : App.state) :
  App.reachable s → App.rssConfig s = None →
  App.feedsByCategory s = ∅
  ∧ App.categories s = []
  ∧ (∀ net c, App.handleCategoryClick net c s = App.setSelectedCategory c s)
  ∧ (∀ net, App.handleRefresh net s = s).
Proof.
  intros Hreach Hcfg.
  pose proof (reachable_no_config s Hreach Hcfg) as Hcache.
  pose proof (reachable_configured s Hreach) as Hcats.
  unfold configured in Hcats. rewrite Hcfg in Hcats.
  split; [done|]. split; [done|]. split.
  - intros net [c|]; [|done]. unfold App.handleCategoryClick.
    rewrite Hcache, lookup_empty. unfold App.loadFeedsForCategory. simpl.
    by rewrite Hcfg.
  - intros net. unfold App.handleRefresh.
    assert (App.setFeedsByCategory (λ _, ∅) s = s) as ->.
    { destruct s. simpl in *. by subst. }
    destruct (App.selectedCategory s) as [[|u c]|]; simpl; try done.
    unfold App.loadFeedsForCategory. by rewrite Hcfg.
Qed.

Lemma no_config_no_fetch_witness :
  let s := App.handle (App.ConfigArrived (inl (js "HTTP 404"))) App.init in
  App.handleRefresh Scene.net (App.handleCategoryClick Scene.net (Some (js "tech")) s)
  = App.setSelectedCategory (Some (js "tech")) s
  ∧ App.error s = Some (js "HTTP 404").
Proof.
  intros s. split; [|done].
  destruct (no_config_no_fetch s) as (_ & _ & Hclick & _).
  - unfold s. apply App.reach_step, App.reach_init.
  - done.
  - rewrite Hclick.
    destruct (no_config_no_fetch (App.setSelectedCategory (Some (js "tech")) s))
      as (_ & _ & _ & Hrefresh).
    + rewrite <- (Hclick Scene.net). unfold s.
      apply (App.reach_step (App.CategoryClick Scene.net (Some (js "tech")))).
      apply App.reach_step, App.reach_init.
    + done.
    + apply Hrefresh.
Defined.


(** ** The variant that selects the first category *)

Section auto_select.
Import Page.

Lemma categoryStep_head f acc e :
  head acc.1 = Some e → head (categoryStep acc f).1 = Some e.
Proof.
  unfold categoryStep. case_decide; [done|]. simpl.
  by destruct acc.1.
Qed.

Lemma fold_categoryStep_head feeds acc e :
  head acc.1 = Some e → head (fold_left categoryStep feeds acc).1 = Some e.
Proof.
  revert acc. induction feeds as [|f feeds IH]; intros acc He; [done|].
  cbn [fold_left]. apply IH. by apply categoryStep_head.
Qed.

Lemma buildCategories_head f feeds :
  ∃ c, head (buildCategories (f :: feeds)) = Some c
       ∧ RSSCategory.id c = categoryIdOf (FeedConfig.category f)
       ∧ RSSCategory.name c = FeedConfig.category f
       ∧ RSSCategory.color c = colorAt 0.
Proof.
  unfold buildCategories. cbn [fold_left].
  set (acc := categoryStep ([], 0%nat) f).
  destruct (head acc.1) as [e|] eqn:He; [|done].
  pose proof (fold_categoryStep_head feeds acc e He) as Hhead.
  destruct ((fold_left categoryStep feeds acc).1) as [|e' m]; [done|].
  injection Hhead as ->. exists e.2. split; [done|].
  unfold acc, categoryStep in He. simpl in He. by injection He as <-.
Qed.

Lemma variant_launched c feeds p s :
  rssConfig (rssData s) = Some feeds →
  list_find (λ c', RSSCategory.id c' = c) (categories (rssData s)) = Some p →
  let s' := AutoSelect.loadFeedsForCategory c s in
  loadingFeeds (loadingState s')
  = list_to_set (FeedConfig.title <$> feedConfigsOf feeds c)
  ∧ failedFeeds (loadingState s') = []
  ∧ loadedFeedsCount (loadingState s') = 0%nat
  ∧ error (rssData s') = None
  ∧ selectedCategory s' = selectedCategory s.
Proof.
  intros Hcfg Hfind. unfold AutoSelect.loadFeedsForCategory.
  rewrite Hcfg, Hfind.
  destruct (batchLoop_from (feedConfigsOf feeds c) 0) as (batches & -> & Hcat & _).
  rewrite drop_0 in Hcat.
  destruct (fold_perform_untouched (pausedBetween batches)
              (resetLoadingState (clearCategoryFeeds c (setError None s))))
    as (_ & _ & Hsel & _).
  destruct (fold_perform_paused batches
              (resetLoadingState (clearCategoryFeeds c (setError None s))))
    as (-> & -> & -> & ->).
  rewrite Hcat, Hsel. simpl. repeat split; try done.
  by rewrite (right_id_L ∅ (∪)).
Qed.

End auto_select.

(** X29. In the variant of [RSSPage] that selects the first category:
    once a configuration with at least one feed config has come in and
    no category is selected, the effect selects the category of the
    first feed config and loads it. The feed configs of that category,
    the first feed config among them, are then marked as loading, none
    as loaded or failed, and there is no error; and the effect does
    nothing when it runs again. *)
Theorem first_category_selected (f : Page.FeedConfig.t)
    (feeds : list Page.FeedConfig.t) (s : Page.state) :
  Page.selectedCategory s = None →
  let c := categoryIdOf (Page.FeedConfig.category f) in
  let s' := AutoSelect.selectFirst
              (Page.loadCategoriesAndConfig (inr (f :: feeds)) s) in
  Page.selectedCategory s' = Some c
  ∧ Page.error (Page.rssData s') = None
  ∧ Page.loadingFeeds (Page.loadingState s')
    = list_to_set (Page.FeedConfig.title
                   <$> Page.feedConfigsOf (f :: feeds) c)
  ∧ Page.FeedConfig.title f ∈ Page.loadingFeeds (Page.loadingState s')
  ∧ Page.failedFeeds (Page.loadingState s') = []
  ∧ Page.loadedFeedsCount (Page.loadingState s') = 0%nat
  ∧ AutoSelect.selectFirst s' = s'.
Proof.
  intros Hsel c s'.
  destruct (buildCategories_head f feeds) as (first & Hhead & Hid & _).
  destruct (Page.buildCategories (f :: feeds)) as [|first' rest] eqn:Hcats;
    [done|].
  injection Hhead as ->.
  assert (Hs' : s' = AutoSelect.loadFeedsForCategory c
                       (Page.setSelectedCategory (Some c)
                          (Page.loadCategoriesAndConfig (inr (f :: feeds)) s))).
  { unfold s', AutoSelect.selectFirst.
    cbn [Page.loadCategoriesAndConfig Page.categories Page.rssData
         Page.setLoading Page.setCategories Page.setRssConfig Page.setError
         Page.setRSSData Page.selectedCategory].
    rewrite Hcats, Hsel, Hid. done. }
  destruct (variant_launched c (f :: feeds) (0%nat, first)
              (Page.setSelectedCategory (Some c)
                 (Page.loadCategoriesAndConfig (inr (f :: feeds)) s)))
    as (Hl & Hf & Hn & He & Hs); [done | |].
  { simpl. rewrite Hcats. simpl. by rewrite decide_True. }
  rewrite <- Hs' in Hl, Hf, Hn, He, Hs.
  split; [done|]. split; [done|]. split; [done|]. split; [|split; [done|]].
  - rewrite Hl. apply elem_of_list_to_set, list_elem_of_fmap.
    exists f. split; [done|]. apply list_elem_of_filter. split; [done | by left].
  - split; [done|]. unfold AutoSelect.selectFirst. rewrite Hs. simpl.
    by destruct (Page.categories (Page.rssData s')).
Qed.

Lemma first_category_selected_witness :
  Page.selectedCategory
    (AutoSelect.selectFirst
       (Page.loadCategoriesAndConfig (inr Scene.pageTwoSpellings) Page.init))
  = Some (js "tech-news").
Proof.
  destruct (first_category_selected
              (Page.FeedConfig.mk None (js "Hacker News")
                 (js "https://news.example/rss") (js "Tech News"))
              [Page.FeedConfig.mk None (js "Lobsters")
                 (js "https://lobste.example/rss") (js "tech  news")]
              Page.init eq_refl) as (H & _).
  exact H.
Defined.
